(** * TUI tester: key encoder, terminal session and session registry

    A shallow embedding of [keys.py] and [session_manager.py].

    - Python [str] is a list of Unicode code points, [bytes] a list of
      [Byte.byte].
    - A Python call either returns or raises: [result].
    - Operating-system calls are answered by an environment [Env] that is
      arbitrary but fixed; the mutable part of the system is [World]. *)

From Stdlib Require Import NArith ZArith Lia Bool List.
From Stdlib Require Import Strings.String Strings.Byte.
From Stdlib Require DecimalFacts DecimalN.
From stdpp Require Import base option list gmap sorting.
From Equations Require Import Equations.
Import ListNotations.

Local Open Scope N_scope.
Local Open Scope list_scope.

(* ===================================================================== *)
(** * Part I: definitions *)
(* ===================================================================== *)

(** ** Python values and exceptions *)

Module Py.

(** OS error numbers that the calls of this program can meet. *)
Inductive errno := EBADF | ESRCH | EPERM | EIO | EINTR | EAGAIN.

Inductive exn :=
| OSError (e : errno)
| UnicodeEncodeError
| Exception (tag : N).

Inductive result (A : Type) :=
| Ok (a : A)
| Raise (e : exn).
Arguments Ok {A} a.
Arguments Raise {A} e.

Definition bind {A B} (r : result A) (k : A -> result B) : result B :=
  match r with
  | Ok a => k a
  | Raise e => Raise e
  end.

#[export] Instance result_ret : MRet result := @Ok.
#[export] Instance result_bind : MBind result := fun A B k r => bind r k.

Definition is_ok {A} (r : result A) : bool :=
  match r with Ok _ => true | Raise _ => false end.

(** [str]: a sequence of code points; [bytes]: a sequence of octets. *)
Definition codepoint := N.
Definition str := list codepoint.
Definition bytes := list byte.

#[export] Instance byte_eq_dec : EqDecision byte := Byte.byte_eq_dec.

(** Literals. *)
Definition u (s : string) : str := map Byte.to_N (list_byte_of_string s).
Definition b (s : string) : bytes := list_byte_of_string s.

Definition byte_of_N (n : N) : byte :=
  match Byte.of_N n with Some x => x | None => x00 end.

(** A code point that UTF-8 can encode: in range and not a surrogate. *)
Definition is_scalar (c : codepoint) : bool :=
  (c <? 0x110000) && negb ((0xD800 <=? c) && (c <=? 0xDFFF)).

(** [chr(c).encode("utf-8")], strict error handler. *)
Definition encode_codepoint (c : codepoint) : result bytes :=
  if c <? 0x80 then Ok [byte_of_N c]
  else if c <? 0x800 then
    Ok [byte_of_N (N.lor 0xC0 (N.shiftr c 6));
        byte_of_N (N.lor 0x80 (N.land c 0x3F))]
  else if negb (is_scalar c) then Raise UnicodeEncodeError
  else if c <? 0x10000 then
    Ok [byte_of_N (N.lor 0xE0 (N.shiftr c 12));
        byte_of_N (N.lor 0x80 (N.land (N.shiftr c 6) 0x3F));
        byte_of_N (N.lor 0x80 (N.land c 0x3F))]
  else
    Ok [byte_of_N (N.lor 0xF0 (N.shiftr c 18));
        byte_of_N (N.lor 0x80 (N.land (N.shiftr c 12) 0x3F));
        byte_of_N (N.lor 0x80 (N.land (N.shiftr c 6) 0x3F));
        byte_of_N (N.lor 0x80 (N.land c 0x3F))].

(** Concatenation of two byte results, the left one evaluated first. *)
Definition cat (r1 r2 : result bytes) : result bytes :=
  x ← r1; y ← r2; mret (x ++ y).

(** [s.encode("utf-8")]. *)
Fixpoint encode_utf8 (s : str) : result bytes :=
  match s with
  | [] => Ok []
  | c :: rest => cat (encode_codepoint c) (encode_utf8 rest)
  end.

(** [s[i:j]] for [0 <= i], [0 <= j]. *)
Definition slice {A} (s : list A) (i j : nat) : list A :=
  firstn (j - i) (skipn i s).

(** [for x in xs: st = body(st, x)], stopping at the first raise. *)
Fixpoint for_each {A St} (body : St -> A -> result St) (st : St) (xs : list A)
  : result St :=
  match xs with
  | [] => Ok st
  | x :: rest => st' ← body st x; for_each body st' rest
  end.

End Py.
Import Py.

(** ** keys.py *)

Module Keys.

Definition LBRACE : codepoint := 0x7B.
Definition RBRACE : codepoint := 0x7D.
Definition ESC : byte := x1b.

(** The dict literal [SPECIAL_KEYS], in source order. *)
Definition SPECIAL_KEYS : list (str * bytes) :=
  [ (u "ENTER", [x0d]);
    (u "RETURN", [x0d]);
    (u "TAB", [x09]);
    (u "ESC", [ESC]);
    (u "ESCAPE", [ESC]);
    (u "BACKSPACE", [x7f]);
    (u "DELETE", ESC :: b "[3~");
    (u "SPACE", b " ");
    (u "UP", ESC :: b "[A");
    (u "DOWN", ESC :: b "[B");
    (u "RIGHT", ESC :: b "[C");
    (u "LEFT", ESC :: b "[D");
    (u "HOME", ESC :: b "[H");
    (u "END", ESC :: b "[F");
    (u "PGUP", ESC :: b "[5~");
    (u "PAGEUP", ESC :: b "[5~");
    (u "PGDN", ESC :: b "[6~");
    (u "PAGEDOWN", ESC :: b "[6~");
    (u "INSERT", ESC :: b "[2~");
    (u "F1", ESC :: b "OP");
    (u "F2", ESC :: b "OQ");
    (u "F3", ESC :: b "OR");
    (u "F4", ESC :: b "OS");
    (u "F5", ESC :: b "[15~");
    (u "F6", ESC :: b "[17~");
    (u "F7", ESC :: b "[18~");
    (u "F8", ESC :: b "[19~");
    (u "F9", ESC :: b "[20~");
    (u "F10", ESC :: b "[21~");
    (u "F11", ESC :: b "[23~");
    (u "F12", ESC :: b "[24~");
    (u "CTRL+A", [x01]);
    (u "CTRL+B", [x02]);
    (u "CTRL+C", [x03]);
    (u "CTRL+D", [x04]);
    (u "CTRL+E", [x05]);
    (u "CTRL+F", [x06]);
    (u "CTRL+G", [x07]);
    (u "CTRL+H", [x08]);
    (u "CTRL+I", [x09]);
    (u "CTRL+J", [x0a]);
    (u "CTRL+K", [x0b]);
    (u "CTRL+L", [x0c]);
    (u "CTRL+M", [x0d]);
    (u "CTRL+N", [x0e]);
    (u "CTRL+O", [x0f]);
    (u "CTRL+P", [x10]);
    (u "CTRL+Q", [x11]);
    (u "CTRL+R", [x12]);
    (u "CTRL+S", [x13]);
    (u "CTRL+T", [x14]);
    (u "CTRL+U", [x15]);
    (u "CTRL+V", [x16]);
    (u "CTRL+W", [x17]);
    (u "CTRL+X", [x18]);
    (u "CTRL+Y", [x19]);
    (u "CTRL+Z", [x1a]);
    (u "CTRL+[", [ESC]);
    (u "CTRL+\", [x1c]);
    (u "CTRL+]", [x1d]);
    (u "CTRL+^", [x1e]);
    (u "CTRL+_", [x1f]) ].

(** [SPECIAL_KEYS.get(name)]: [None] when [name not in SPECIAL_KEYS]. *)
Fixpoint dict_get (d : list (str * bytes)) (name : str) : option bytes :=
  match d with
  | [] => None
  | (k, v) :: rest => if decide (k = name) then Some v else dict_get rest name
  end.

(** A match object of [SPECIAL_KEY_PATTERN]: [start()], [end()] and
    [group(1)]. *)
Record Match := { m_start : nat; m_end : nat; group1 : str }.

(** Index of the first [RBRACE] of [s], if any. *)
Fixpoint find_close (s : str) : option nat :=
  match s with
  | [] => None
  | c :: rest => if c =? RBRACE then Some 0%nat else S <$> find_close rest
  end.

(** [SPECIAL_KEY_PATTERN.finditer] on the part [s] of the input that starts
    at offset [off].  The pattern is an opening brace, a longest run of one
    or more characters other than the closing brace, and a closing brace:
    an attempt at an opening brace succeeds exactly when the next closing
    brace exists and is not the next character. After a match the scan
    resumes behind it; otherwise one character further. [fuel] bounds the
    number of scan steps. *)
Fixpoint scan (fuel : nat) (off : nat) (s : str) : list Match :=
  match fuel with
  | O => []
  | S fuel' =>
    match s with
    | [] => []
    | c :: rest =>
      if c =? LBRACE then
        match find_close rest with
        | Some (S j) =>
          {| m_start := off; m_end := off + S j + 2; group1 := firstn (S j) rest |}
            :: scan fuel' (off + S j + 2) (skipn (S j + 1) rest)
        | _ => scan fuel' (S off) rest
        end
      else scan fuel' (S off) rest
    end
  end.

Definition finditer (s : str) : list Match := scan (length s) 0 s.

(** The ASCII letters in the other case. *)
Definition ascii_upper (c : codepoint) : codepoint :=
  if (0x61 <=? c) && (c <=? 0x7A) then c - 0x20 else c.

Definition ascii_lower (c : codepoint) : codepoint :=
  if (0x41 <=? c) && (c <=? 0x5A) then c + 0x20 else c.

Definition is_ascii (c : codepoint) : bool := c <? 0x80.

(** A casing of a name: some of its upper-case letters in lower case. *)
Definition casing_of (name t : str) : Prop :=
  Forall2 (fun d c => c = d \/ c = ascii_lower d) name t.

(** What holds of every character [d] of every key name: it is ASCII and
    no lower-case letter, and neither it nor its lower-case form is the
    closing brace. *)
Definition key_char (d : codepoint) : bool :=
  is_ascii d && (ascii_upper d =? d) && negb (d =? RBRACE)
  && is_ascii (ascii_lower d) && negb (ascii_lower d =? RBRACE)
  && (ascii_upper (ascii_lower d) =? d).

(** An entry of the table is well formed: a non-empty name of such
    characters, under which the table holds that very value. *)
Definition key_entry (d : list (str * bytes)) (kv : str * bytes) : bool :=
  negb (bool_decide (kv.1 = [])) && forallb key_char kv.1
  && bool_decide (dict_get d kv.1 = Some kv.2).

(** [str.upper] on ASCII text. *)
Definition upper_ascii (s : str) : str := map ascii_upper s.

Section WithUpper.

(** [str.upper] of the Python runtime. *)
Variable upper : str -> str.

(** The body of the [for match in ...] loop; the loop state is
    [(result, pos)]. *)
Definition loop_body (input_string : str) (st : bytes * nat) (m : Match)
  : result (bytes * nat) :=
  let '(result, pos) := st in
  result ← (if (pos <? m_start m)%nat
            then x ← encode_utf8 (slice input_string pos (m_start m));
                 mret (result ++ x)
            else mret result);
  let key_name := upper (group1 m) in
  result ← match dict_get SPECIAL_KEYS key_name with
           | Some v => mret (result ++ v)
           | None =>
             x ← encode_utf8 ([LBRACE] ++ group1 m ++ [RBRACE]);
             mret (result ++ x)
           end;
  mret (result, m_end m).

(** What remains after the loop: the text behind the last match. *)
Definition finish (input_string : str) (st : bytes * nat) : result bytes :=
  let '(result, pos) := st in
  if (pos <? length input_string)%nat
  then x ← encode_utf8 (skipn pos input_string); mret (result ++ x)
  else mret result.

Definition parse_keys (input_string : str) : result bytes :=
  st ← for_each (loop_body input_string) ([], 0%nat) (finditer input_string);
  finish input_string st.

(** What one token puts out, as [loop_body] decides it. *)
Definition emit (name : str) : result bytes :=
  match dict_get SPECIAL_KEYS (upper name) with
  | Some v => Ok v
  | None => encode_utf8 ([LBRACE] ++ name ++ [RBRACE])
  end.

(** [parse_keys] read as a recursion over the input, one character or one
    token at a time; [parse_keys_rec] shows that the two agree. *)
Fixpoint parse_rec (fuel : nat) (s : str) : result bytes :=
  match fuel with
  | O => Ok []
  | S fuel' =>
    match s with
    | [] => Ok []
    | c :: rest =>
      if c =? LBRACE then
        match find_close rest with
        | Some (S j) =>
          cat (emit (firstn (S j) rest)) (parse_rec fuel' (skipn (S j + 1) rest))
        | _ => cat (encode_codepoint c) (parse_rec fuel' rest)
        end
      else cat (encode_codepoint c) (parse_rec fuel' rest)
    end
  end.

(** The loop and what follows it, from any loop state. *)
Definition run (input_string : str) (st : bytes * nat) (ms : list Match)
  : result bytes :=
  st ← for_each (loop_body input_string) st ms;
  finish input_string st.

End WithUpper.

(** A piece of an input: literal text, or a token [{t}] that stands for
    the bytes [v]; what a piece is in the input, and what it becomes. *)
Inductive piece :=
| Text (t : str)
| Key (t : str) (v : bytes).

Definition piece_src (p : piece) : str :=
  match p with
  | Text t => t
  | Key t _ => [LBRACE] ++ t ++ [RBRACE]
  end.

Definition piece_out (p : piece) : result bytes :=
  match p with
  | Text t => encode_utf8 t
  | Key _ v => Ok v
  end.

(** A [Key] piece carries the bytes the table has for its name. *)
Definition piece_ok (upper : str -> str) (p : piece) : Prop :=
  match p with
  | Text _ => True
  | Key t v => dict_get SPECIAL_KEYS (upper t) = Some v
  end.

(** The outputs of the pieces, one after the other. *)
Definition pieces_out (ps : list piece) : result bytes :=
  foldr (fun p r => cat (piece_out p) r) (Ok []) ps.

(** A match of [s]: it lies inside [s], starts with the opening and ends
    with the closing brace, and group 1 is what is between them: at least
    one character, none of them a closing brace. *)
Definition match_of (s : str) (m : Match) : Prop :=
  (m_start m + 2 < m_end m)%nat /\ (m_end m <= length s)%nat
  /\ s !! m_start m = Some LBRACE
  /\ s !! (m_end m - 1)%nat = Some RBRACE
  /\ group1 m = slice s (m_start m + 1) (m_end m - 1)
  /\ (RBRACE ∉ group1 m).

(** [a <= b] on [str]: code point by code point, a prefix first. *)
Fixpoint str_leb (a b : str) : bool :=
  match a, b with
  | [], _ => true
  | _ :: _, [] => false
  | x :: a', y :: b' =>
    if x <? y then true else if y <? x then false else str_leb a' b'
  end.

Definition str_le (a b : str) : Prop := str_leb a b = true.

#[export] Instance str_le_dec : RelDecision str_le :=
  fun a b => decide (str_leb a b = true).

(** [sorted(d.keys())]. The names of a dict differ from one another, so
    every sorting algorithm gives the same list. *)
Definition sorted_keys (d : list (str * bytes)) : list str :=
  merge_sort str_le d.*1.

(** [get_available_keys]. *)
Definition get_available_keys : list str := sorted_keys SPECIAL_KEYS.

End Keys.

(** ** The operating system *)

Module OS.

Inductive signal := SIG0 | SIGTERM | SIGKILL.

(** A [pathlib.Path] is its list of components; an absolute path starts
    with the empty component. *)
Definition Path := list str.

(** One entry per call that leaves the process, with its outcome. *)
Inductive event :=
| EvClose (fd : Z) (r : result unit)
| EvKill (pid : Z) (sig : signal) (r : result unit)
| EvSleep (ms : Z)
| EvSelect (fd : Z) (timeout_ms : Z) (r : result bool)
| EvRead (fd : Z) (n : N) (r : result bytes)
| EvWrite (fd : Z) (data : bytes) (r : result unit)
| EvRender (path : Path) (r : result unit).

(** What the outside answers. Every answer may depend on the time of the
    call, so a process can die, ignore a signal or reappear at any moment,
    and every call can fail with any error number. *)
Record Env := {
  kill_fault : nat -> Z -> signal -> option errno;
  close_fault : nat -> Z -> option errno;
  select_answer : nat -> Z -> errno + bool;
  read_answer : nat -> Z -> errno + bytes;
  write_fault : nat -> Z -> option errno;
  render_fault : nat -> Path -> option exn;
  screen_display : list bytes -> list str;
  uuid4 : nat -> str;
  pty_fork : nat -> Z * Z
}.

(** The mutable state: a clock that advances with every call that has an
    effect, the table of open file descriptors, and the log of calls. *)
Record World := {
  now : nat;
  open_fds : gset Z;
  trace : list event
}.

(** A computation over a state [St] that returns or raises; the state
    survives a raise. *)
Definition M (St A : Type) : Type := St -> result A * St.

#[export] Instance M_ret {St} : MRet (M St) := fun A a st => (Ok a, st).
#[export] Instance M_bind {St} : MBind (M St) := fun A B k m st =>
  match m st with
  | (Ok a, st') => k a st'
  | (Raise e, st') => (Raise e, st')
  end.

Definition raise {St A} (e : exn) : M St A := fun st => (Raise e, st).

(** [try: body / except OSError: handler]. *)
Definition try_except_OSError {St A} (body handler : M St A) : M St A :=
  fun st =>
    match body st with
    | (Raise (OSError _), st') => handler st'
    | other => other
    end.

Definition of_fault (f : option errno) : result unit :=
  match f with
  | None => Ok tt
  | Some e => Raise (OSError e)
  end.

Definition of_answer {A} (a : errno + A) : result A :=
  match a with
  | inl e => Raise (OSError e)
  | inr x => Ok x
  end.

(** The calls made between two states of the world. *)
Definition since (w w' : World) : list event :=
  skipn (length (trace w)) (trace w').

(** A round of the drain loop starts with a [select]. *)
Definition is_select (e : event) : bool :=
  match e with
  | EvSelect _ _ _ => true
  | _ => false
  end.

(** A read asks for [n] bytes and gets no more. *)
Definition read_within (n : N) (e : event) : bool :=
  match e with
  | EvRead _ m (Ok x) => (m =? n) && (length x <=? N.to_nat n)%nat
  | EvRead _ m (Raise _) => m =? n
  | _ => true
  end.

(** The number of rounds of the drain loop in a log. *)
Definition selects (d : list event) : nat :=
  length (List.filter is_select d).

(** The outcomes that end the drain loop: nothing ready, or a failed
    poll; no bytes read, or a failed read. *)
Definition stops_drain (e : event) : bool :=
  match e with
  | EvSelect _ _ (Ok true) => false
  | EvSelect _ _ _ => true
  | EvRead _ _ (Ok (_ :: _)) => false
  | EvRead _ _ _ => true
  | _ => false
  end.

(** The time slept in a log, in milliseconds. *)
Definition slept (d : list event) : Z :=
  foldr (fun e acc => match e with EvSleep ms => ms + acc | _ => acc end)%Z
    0%Z d.

(** The bytes a call brought in: a read that succeeded and was not empty. *)
Definition chunk_of (e : event) : option bytes :=
  match e with
  | EvRead _ _ (Ok (c :: chunk)) => Some (c :: chunk)
  | _ => None
  end.

Definition chunks (d : list event) : list bytes := omap chunk_of d.

(** A call on the descriptor [fd] or the process [pid], or a sleep. *)
Definition call_of (fd pid : Z) (e : event) : bool :=
  match e with
  | EvClose f _ => bool_decide (f = fd)
  | EvKill p _ _ => bool_decide (p = pid)
  | EvSleep _ => true
  | _ => false
  end.


(** The rendering attempts in a log. *)
Definition is_render (e : event) : bool :=
  match e with
  | EvRender _ _ => true
  | _ => false
  end.

Definition renders (d : list event) : nat :=
  length (List.filter is_render d).

(** A call of the drain loop on the descriptor [fd]. *)
Definition drain_of (fd : Z) (e : event) : bool :=
  match e with
  | EvSelect f _ _ => bool_decide (f = fd)
  | EvRead f _ _ => bool_decide (f = fd)
  | _ => false
  end.

Section Calls.

Variable env : Env.

Definition log (w : World) (tick : nat) (fds : gset Z) (e : event) : World :=
  {| now := now w + tick; open_fds := fds; trace := trace w ++ [e] |}.

(** [os.close(fd)]: a descriptor that is not open gives [EBADF]; an open
    one is released, also when the call reports an error. *)
Definition os_close (fd : Z) : M World unit := fun w =>
  let r := if decide (fd ∈ open_fds w)
           then of_fault (close_fault env (now w) fd)
           else Raise (OSError EBADF) in
  (r, log w 1 (open_fds w ∖ {[fd]}) (EvClose fd r)).

(** [os.kill(pid, sig)]. The probe with signal 0 has no effect and takes
    no time. *)
Definition os_kill (pid : Z) (sig : signal) : M World unit := fun w =>
  let r := of_fault (kill_fault env (now w) pid sig) in
  (r, log w (match sig with SIG0 => 0 | _ => 1 end) (open_fds w) (EvKill pid sig r)).

(** [time.sleep] and [asyncio.sleep], in milliseconds. *)
Definition sleep (ms : Z) : M World unit := fun w =>
  (Ok tt, log w 1 (open_fds w) (EvSleep ms)).

(** [select.select([fd], [], [], timeout)]: is the ready list non-empty? *)
Definition select (fd : Z) (timeout_ms : Z) : M World bool := fun w =>
  let r := of_answer (select_answer env (now w) fd) in
  (r, log w 1 (open_fds w) (EvSelect fd timeout_ms r)).

(** [os.read(fd, n)] returns at most [n] bytes. *)
Definition os_read (fd : Z) (n : N) : M World bytes := fun w =>
  let r := x ← of_answer (read_answer env (now w) fd);
           mret (firstn (N.to_nat n) x) in
  (r, log w 1 (open_fds w) (EvRead fd n r)).

Definition os_write (fd : Z) (data : bytes) : M World unit := fun w =>
  let r := of_fault (write_fault env (now w) fd) in
  (r, log w 1 (open_fds w) (EvWrite fd data r)).

(** The image renderer behind [_render_image]. *)
Definition render (path : Path) : M World unit := fun w =>
  let r := match render_fault env (now w) path with
           | None => Ok tt
           | Some e => Raise e
           end in
  (r, log w 1 (open_fds w) (EvRender path r)).

End Calls.

End OS.
Import OS.

(** ** session_manager.py: TUISession *)

Module TUISession.

(** The dataclass. [stream] and [screen] are one emulator, known here by
    the chunks fed to it. *)
Record t := {
  id : str;
  command : str;
  rows : Z;
  cols : Z;
  pid : Z;
  fd : Z;
  stream : list bytes;
  session_dir : Path;
  created_at : nat;
  capture_count : Z
}.

(** The generated [__init__]: [capture_count] defaults to 0. *)
Definition init (id command : str) (rows cols pid fd : Z) (session_dir : Path)
  (created_at : nat) : t :=
  {| id := id; command := command; rows := rows; cols := cols; pid := pid;
     fd := fd; stream := []; session_dir := session_dir;
     created_at := created_at; capture_count := 0 |}.

(** A method runs on the object and the world. *)
Record Obj := { self : t; world : World }.

Definition in_world {A} (m : M World A) : M Obj A := fun o =>
  let '(r, w) := m (world o) in (r, {| self := self o; world := w |}).

Definition get_self : M Obj t := fun o => (Ok (self o), o).
Definition set_self (s : t) : M Obj unit := fun o =>
  (Ok tt, {| self := s; world := world o |}).

Definition feed (chunk : bytes) (s : t) : t :=
  {| id := id s; command := command s; rows := rows s; cols := cols s;
     pid := pid s; fd := fd s; stream := stream s ++ [chunk];
     session_dir := session_dir s; created_at := created_at s;
     capture_count := capture_count s |}.

Definition bump_capture_count (s : t) : t :=
  {| id := id s; command := command s; rows := rows s; cols := cols s;
     pid := pid s; fd := fd s; stream := stream s;
     session_dir := session_dir s; created_at := created_at s;
     capture_count := capture_count s + 1 |}.

(** [s'] is [s] but for what was fed to the emulator. *)
Definition keeps (s s' : t) : Prop :=
  id s' = id s /\ command s' = command s /\ rows s' = rows s
  /\ cols s' = cols s /\ pid s' = pid s /\ fd s' = fd s
  /\ session_dir s' = session_dir s /\ created_at s' = created_at s
  /\ capture_count s' = capture_count s.

(** The dict that [capture] returns. *)
Record Capture := { text : str; ansi : str; image_path : Path }.

(** [str.rstrip()]: the characters for which [str.isspace] holds. *)
Definition isspace (c : codepoint) : bool :=
  ((0x09 <=? c) && (c <=? 0x0D)) || ((0x1C <=? c) && (c <=? 0x20))
  || (c =? 0x85) || (c =? 0xA0) || (c =? 0x1680)
  || ((0x2000 <=? c) && (c <=? 0x200A)) || (c =? 0x2028) || (c =? 0x2029)
  || (c =? 0x202F) || (c =? 0x205F) || (c =? 0x3000).

Fixpoint lstrip (s : str) : str :=
  match s with
  | c :: rest => if isspace c then lstrip rest else s
  | [] => []
  end.

Definition rstrip (s : str) : str := rev (lstrip (rev s)).

(** ["\n".join(lines)]. *)
Fixpoint join_lines (lines : list str) : str :=
  match lines with
  | [] => []
  | [l] => l
  | l :: rest => l ++ [0x0A] ++ join_lines rest
  end.

(** Decimal digits of a natural number. *)
Fixpoint uint_str (d : Decimal.uint) : str :=
  match d with
  | Decimal.Nil => []
  | Decimal.D0 d => 0x30 :: uint_str d
  | Decimal.D1 d => 0x31 :: uint_str d
  | Decimal.D2 d => 0x32 :: uint_str d
  | Decimal.D3 d => 0x33 :: uint_str d
  | Decimal.D4 d => 0x34 :: uint_str d
  | Decimal.D5 d => 0x35 :: uint_str d
  | Decimal.D6 d => 0x36 :: uint_str d
  | Decimal.D7 d => 0x37 :: uint_str d
  | Decimal.D8 d => 0x38 :: uint_str d
  | Decimal.D9 d => 0x39 :: uint_str d
  end.

Definition zfill (width : nat) (s : str) : str :=
  repeat 0x30 (width - length s) ++ s.

(** [f"{n:04d}"]: at least four characters, zeros behind the sign. *)
Definition format_04d (n : Z) : str :=
  if (n <? 0)%Z
  then 0x2D :: zfill 3 (uint_str (N.to_uint (Z.abs_N n)))
  else zfill 4 (uint_str (N.to_uint (Z.abs_N n))).

Section Methods.

Variable env : Env.

(** [is_alive]. *)
Definition is_alive (s : t) : M World bool :=
  try_except_OSError
    (os_kill env (pid s) SIG0;; mret true)
    (mret false).

(** One pass of the [while] body of [_read_output], after [reads += 1]:
    [None] is [break], [Some output] goes on. *)
Definition read_once (timeout_ms : Z) (output : bytes) : M Obj (option bytes) :=
  s ← get_self;
  ready ← in_world (select env (fd s) timeout_ms);
  if negb ready then mret None
  else
    try_except_OSError
      (chunk ← in_world (os_read env (fd s) 8192);
       match chunk with
       | [] => mret None
       | _ =>
         let output := output ++ chunk in
         set_self (feed chunk s);;
         mret (Some output)
       end)
      (mret None).

(** The [while reads < max_reads] loop of [_read_output]. *)
Equations? read_loop (timeout_ms max_reads reads : Z) (output : bytes) (o : Obj)
  : result bytes * Obj by wf (Z.to_nat (max_reads - reads)) lt :=
read_loop timeout_ms max_reads reads output o with decide (reads < max_reads)%Z := {
  | right _ => (Ok output, o)
  | left _ =>
    let reads := (reads + 1)%Z in
    match read_once timeout_ms output o with
    | (Ok (Some output), o) => read_loop timeout_ms max_reads reads output o
    | (Ok None, o) => (Ok output, o)
    | (Raise e, o) => (Raise e, o)
    end }.
Proof. lia. Qed.

(** [_read_output(timeout, max_reads)]; the defaults are 0.1 s and 100. *)
Definition _read_output (timeout_ms max_reads : Z) : M Obj bytes :=
  read_loop timeout_ms max_reads 0 [].

(** [send(data, wait_ms)]. *)
Definition send (data : bytes) (wait_ms : Z) : M Obj unit :=
  s ← get_self;
  in_world (os_write env (fd s) data);;
  in_world (sleep wait_ms);;
  _read_output 100 100;;
  mret tt.

(** [_render_image(path)]: drawing is the renderer's business. *)
Definition _render_image (path : Path) : M Obj unit :=
  in_world (render env path).

(** [capture]. *)
Definition capture : M Obj Capture :=
  _read_output 100 100;;
  s ← get_self;
  let text_lines := map rstrip (screen_display env (stream s)) in
  let text := join_lines text_lines in
  let ansi := text in
  set_self (bump_capture_count s);;
  s ← get_self;
  let image_path :=
    session_dir s ++ [u "capture_" ++ format_04d (capture_count s) ++ u ".png"] in
  _render_image image_path;;
  mret {| text := text; ansi := ansi; image_path := image_path |}.

(** The [for _ in range(n)] loop of [close]: [true] when it ran to its end
    (the [else] branch is due), [false] when it was left by [break]. *)
Fixpoint poll (s : t) (n : nat) : M World bool :=
  match n with
  | O => mret true
  | S n' =>
    go_on ← try_except_OSError
              (os_kill env (pid s) SIG0;; sleep 100;; mret true)
              (mret false);
    if go_on : bool then poll s n' else mret false
  end.

(** [close]. *)
Definition close (s : t) : M World unit :=
  try_except_OSError (os_close env (fd s)) (mret tt);;
  alive ← is_alive s;
  if alive : bool then
    try_except_OSError
      (os_kill env (pid s) SIGTERM;;
       finished ← poll s 10;
       if finished : bool then os_kill env (pid s) SIGKILL else mret tt)
      (mret tt)
  else mret tt.

(** What a caller does with a session, one call after the other: a call
    that raises leaves the session as it is then to the next call. *)
Inductive call :=
| CallCapture
| CallSend (data : bytes) (wait_ms : Z)
| CallDrain (timeout_ms max_reads : Z).

Definition run_call (o : Obj) (c : call) : Obj :=
  match c with
  | CallCapture => (capture o).2
  | CallSend data wait_ms => (send data wait_ms o).2
  | CallDrain timeout_ms max_reads => (_read_output timeout_ms max_reads o).2
  end.

Definition run_calls (cs : list call) (o : Obj) : Obj := foldl run_call o cs.

End Methods.

End TUISession.

(** ** session_manager.py: SessionManager *)

Module SessionManager.

Record t := {
  base_dir : Path;
  _sessions : gmap str TUISession.t
}.

Record Mgr := { self : t; world : World }.

Definition in_world {A} (m : M World A) : M Mgr A := fun g =>
  let '(r, w) := m (world g) in (r, {| self := self g; world := w |}).

Definition get_sessions : M Mgr (gmap str TUISession.t) := fun g =>
  (Ok (_sessions (self g)), g).

Definition set_sessions (m : gmap str TUISession.t) : M Mgr unit := fun g =>
  (Ok tt, {| self := {| base_dir := base_dir (self g); _sessions := m |};
             world := world g |}).

(** A method of the session stored under [sid], run on that very object:
    what it does to the object shows in the dict. *)
Definition on_session {A} (sid : str) (s : TUISession.t)
  (m : M TUISession.Obj A) : M Mgr A := fun g =>
  let '(r, o) := m {| TUISession.self := s; TUISession.world := world g |} in
  (r, {| self := {| base_dir := base_dir (self g);
                    _sessions := <[sid := TUISession.self o]> (_sessions (self g)) |};
         world := TUISession.world o |}).

Section Methods.

Variable env : Env.

(** [spawn], the parent's side of [pty.fork]. *)
Definition spawn (command : str) (rows cols : Z) : M Mgr TUISession.t :=
  g ← (fun g => (Ok g, g));
  let w := world g in
  let session_id := firstn 8 (uuid4 env (now w)) in
  let session_dir := base_dir (self g) ++ [session_id] in
  let '(pid, fd) := pty_fork env (now w) in
  in_world (fun w => (Ok tt, {| now := now w + 1;
                                open_fds := open_fds w ∪ {[fd]};
                                trace := trace w |}));;
  let session :=
    TUISession.init session_id command rows cols pid fd session_dir (now w) in
  sessions ← get_sessions;
  set_sessions (<[session_id := session]> sessions);;
  in_world (sleep 500);;
  on_session session_id session (TUISession._read_output env 100 100);;
  sessions ← get_sessions;
  mret (default session (sessions !! session_id)).

(** [get]. *)
Definition get (session_id : str) : M Mgr (option TUISession.t) :=
  sessions ← get_sessions;
  mret (sessions !! session_id).

(** [close]: [self._sessions.pop(session_id, None)], then the session's
    own [close]. *)
Definition close (session_id : str) : M Mgr bool :=
  sessions ← get_sessions;
  let session := sessions !! session_id in
  set_sessions (delete session_id sessions);;
  match session with
  | Some session =>
    in_world (TUISession.close env session);;
    mret true
  | None => mret false
  end.

(** What [is_alive] says of a session in a given world: [true] here
    when it says [False]. *)
Definition reported_dead (w : World) (s : TUISession.t) : bool :=
  match (TUISession.is_alive env s w).1 with
  | Ok false => true
  | _ => false
  end.

(** [list_sessions]. *)
Definition list_sessions : M Mgr (list TUISession.t) :=
  sessions ← get_sessions;
  mret (snd <$> map_to_list sessions).

(** The list comprehension of [cleanup_dead]. *)
Fixpoint dead_ids (items : list (str * TUISession.t)) : M World (list str) :=
  match items with
  | [] => mret []
  | (sid, s) :: rest =>
    alive ← TUISession.is_alive env s;
    dead ← dead_ids rest;
    mret (if alive : bool then dead else sid :: dead)
  end.

(** [for sid in dead: await self.close(sid)]. *)
Fixpoint close_all (dead : list str) : M Mgr unit :=
  match dead with
  | [] => mret tt
  | sid :: rest => close sid;; close_all rest
  end.

(** [cleanup_dead]. *)
Definition cleanup_dead : M Mgr Z :=
  sessions ← get_sessions;
  dead ← in_world (dead_ids (map_to_list sessions));
  close_all dead;;
  mret (Z.of_nat (length dead)).

End Methods.

End SessionManager.

(** ** __init__.py: the tool, sending keys *)

Module Tool.

(** The entries of the input dict that [_send_keys] reads; an absent key
    is [None]. *)
Record Kwargs := {
  session_id : option str;
  keys : option str;
  wait_ms : option Z
}.

(** The dict that [_send_keys] passes as [data]; its ["status"] is always
    ["sent"]. *)
Record SentData := {
  keys_sent : nat;
  session_alive : bool
}.

(** A pure computation that returns or raises, inside a method. *)
Definition lift {St A} (r : result A) : M St A := fun st => (r, st).

Section Methods.

Variable upper : str -> str.
Variable env : Env.

(** [ToolResult] comes from amplifier_core and is no part of this code:
    its objects, and what the call
    [ToolResult(success=..., data=..., error=...)] gives for its
    arguments, an object or an exception, are taken as they are. [None]
    is a keyword that the call leaves out. *)
Variable ToolResult : Type.
Variable ToolResult_new :
  bool -> option SentData -> option str -> result ToolResult.

(** [_send_keys(manager, kwargs)]. [session] is the object stored in the
    manager's dict, so what [send] feeds to its emulator shows there;
    [is_alive] reads its [pid], which no method assigns. *)
Definition _send_keys (kwargs : Kwargs) : M SessionManager.Mgr ToolResult :=
  match session_id kwargs with
  | None | Some [] =>
    lift (ToolResult_new false None
            (Some (u "Missing required parameter: session_id")))
  | Some session_id =>
    let keys := default [] (keys kwargs) in
    let wait_ms := default 100%Z (wait_ms kwargs) in
    session ← SessionManager.get session_id;
    match session with
    | None =>
      lift (ToolResult_new false None
              (Some (u "Session not found: " ++ session_id)))
    | Some session =>
      key_bytes ← lift (Keys.parse_keys upper keys);
      SessionManager.on_session session_id session
        (TUISession.send env key_bytes wait_ms);;
      alive ← SessionManager.in_world (TUISession.is_alive env session);
      lift (ToolResult_new true
              (Some {| keys_sent := length key_bytes;
                       session_alive := alive |})
              None)
    end
  end.

End Methods.

End Tool.

(** ** Concrete environments, for the examples *)

Module Scenario.

(** No call fails, the child is silent and obeys no signal. *)
Definition stubborn : Env :=
  {| kill_fault := fun _ _ _ => None;
     close_fault := fun _ _ => None;
     select_answer := fun _ _ => inr false;
     read_answer := fun _ _ => inr [];
     write_fault := fun _ _ => None;
     render_fault := fun _ _ => None;
     screen_display := fun _ => [];
     uuid4 := fun _ => u "0123abcd-0000";
     pty_fork := fun _ => (100%Z, 5%Z) |}.

(** The child runs under another user: signals to it are refused. *)
Definition foreign : Env :=
  {| kill_fault := fun _ _ _ => Some EPERM;
     close_fault := fun _ _ => None;
     select_answer := fun _ _ => inr false;
     read_answer := fun _ _ => inr [];
     write_fault := fun _ _ => None;
     render_fault := fun _ _ => None;
     screen_display := fun _ => [];
     uuid4 := fun _ => u "0123abcd-0000";
     pty_fork := fun _ => (100%Z, 5%Z) |}.

(** The renderer fails. *)
Definition no_renderer : Env :=
  {| kill_fault := fun _ _ _ => None;
     close_fault := fun _ _ => None;
     select_answer := fun _ _ => inr false;
     read_answer := fun _ _ => inr [];
     write_fault := fun _ _ => None;
     render_fault := fun _ _ => Some (Exception 0);
     screen_display := fun _ => [];
     uuid4 := fun _ => u "0123abcd-0000";
     pty_fork := fun _ => (100%Z, 5%Z) |}.

(** The renderer fails at first and works later. *)
Definition flaky_renderer : Env :=
  {| kill_fault := fun _ _ _ => None;
     close_fault := fun _ _ => None;
     select_answer := fun _ _ => inr false;
     read_answer := fun _ _ => inr [];
     write_fault := fun _ _ => None;
     render_fault := fun t _ => if (t <? 2)%nat then Some (Exception 0) else None;
     screen_display := fun _ => [];
     uuid4 := fun _ => u "0123abcd-0000";
     pty_fork := fun _ => (100%Z, 5%Z) |}.

(** The child writes without end. *)
Definition chatty : Env :=
  {| kill_fault := fun _ _ _ => None;
     close_fault := fun _ _ => None;
     select_answer := fun _ _ => inr true;
     read_answer := fun _ _ => inr (b "x");
     write_fault := fun _ _ => None;
     render_fault := fun _ _ => None;
     screen_display := fun _ => [];
     uuid4 := fun _ => u "0123abcd-0000";
     pty_fork := fun _ => (100%Z, 5%Z) |}.

Definition session : TUISession.t :=
  TUISession.init (u "0123abcd") (u "sh") 24 80 100 5
    [u ""; u "tmp"; u "0123abcd"] 0.

Definition world : World :=
  {| now := 0; open_fds := {[5%Z]}; trace := [] |}.

Definition obj : TUISession.Obj :=
  {| TUISession.self := session; TUISession.world := world |}.

(** A registry that holds [session]. *)
Definition manager : SessionManager.Mgr :=
  {| SessionManager.self :=
       {| SessionManager.base_dir := [u ""; u "tmp"];
          SessionManager._sessions := {[ u "0123abcd" := session ]} |};
     SessionManager.world := world |}.

(** The first child, process 100, exits at once, the later ones run on;
    the system hands out the lowest free descriptor, 5, every time. *)
Definition recycling : Env :=
  {| kill_fault := fun _ p _ => if (p =? 100)%Z then Some ESRCH else None;
     close_fault := fun _ _ => None;
     select_answer := fun _ _ => inr false;
     read_answer := fun _ _ => inr [];
     write_fault := fun _ _ => None;
     render_fault := fun _ _ => None;
     screen_display := fun _ => [];
     uuid4 := fun t => if (t <? 4)%nat then u "0123abcd-0000"
                       else u "89ef4567-0000";
     pty_fork := fun t => ((100 + Z.of_nat t)%Z, 5%Z) |}.

(** A registry without sessions, and no descriptor open. *)
Definition empty_manager : SessionManager.Mgr :=
  {| SessionManager.self :=
       {| SessionManager.base_dir := [u ""; u "tmp"];
          SessionManager._sessions := ∅ |};
     SessionManager.world := {| now := 0; open_fds := ∅; trace := [] |} |}.

(** The sessions that two calls of [spawn] give with [recycling]. *)
Definition first : TUISession.t :=
  TUISession.init (u "0123abcd") (u "true") 24 80 100 5
    [u ""; u "tmp"; u "0123abcd"] 0.

Definition second : TUISession.t :=
  TUISession.init (u "89ef4567") (u "top") 24 80 104 5
    [u ""; u "tmp"; u "89ef4567"] 4.

End Scenario.

(* ===================================================================== *)
(** * Part II: the key encoder *)
(* ===================================================================== *)

Import Keys.

(** ** Byte results *)

#[local] Arguments cat : simpl never.
#[local] Arguments dict_get : simpl never.

Ltac result_simpl :=
  unfold cat; cbn [mbind result_bind bind mret result_ret].

Lemma cat_Ok (x y : bytes) : cat (Ok x) (Ok y) = Ok (x ++ y).
Proof. reflexivity. Qed.

Lemma cat_nil_l (r : result bytes) : cat (Ok []) r = r.
Proof. by destruct r. Qed.

Lemma cat_nil_r (r : result bytes) : cat r (Ok []) = r.
Proof. destruct r as [x|e]; [|done]. by rewrite cat_Ok, app_nil_r. Qed.

Lemma cat_assoc (r1 r2 r3 : result bytes) :
  cat (cat r1 r2) r3 = cat r1 (cat r2 r3).
Proof.
  destruct r1 as [x|], r2 as [y|], r3 as [z|]; try done.
  by rewrite !cat_Ok, app_assoc.
Qed.

Lemma encode_utf8_app (s1 s2 : str) :
  encode_utf8 (s1 ++ s2) = cat (encode_utf8 s1) (encode_utf8 s2).
Proof.
  induction s1 as [|c s1 IH]; simpl.
  - by rewrite cat_nil_l.
  - by rewrite IH, cat_assoc.
Qed.

Lemma encode_utf8_one (c : codepoint) : encode_utf8 [c] = encode_codepoint c.
Proof. simpl. apply cat_nil_r. Qed.

Lemma encode_codepoint_scalar (c : codepoint) :
  is_scalar c = true -> exists x, encode_codepoint c = Ok x.
Proof.
  intros Hc. unfold encode_codepoint. rewrite Hc. simpl.
  repeat case_match; eauto.
Qed.

Lemma encode_utf8_scalar (s : str) :
  Forall (fun c => is_scalar c = true) s -> exists x, encode_utf8 s = Ok x.
Proof.
  induction 1 as [|c s Hc _ [y Hy]]; simpl; [eauto|].
  destruct (encode_codepoint_scalar c Hc) as [x Hx].
  rewrite Hx, Hy. eauto.
Qed.

(** ** The closing brace *)

Lemma find_close_Some (s : str) (k : nat) :
  find_close s = Some k ->
  s = firstn k s ++ RBRACE :: skipn (S k) s /\ RBRACE ∉ firstn k s.
Proof.
  revert k. induction s as [|c s IH]; intros k; simpl; [done|].
  destruct (N.eqb_spec c RBRACE) as [->|Hc].
  - intros [= <-]. simpl. split; [done|]. apply not_elem_of_nil.
  - destruct (find_close s) as [k'|] eqn:Hk; simpl; [|done].
    intros [= <-]. destruct (IH k' eq_refl) as [Hs Hn]. simpl. split.
    + by rewrite <- Hs.
    + rewrite not_elem_of_cons. split; [congruence | done].
Qed.

Lemma find_close_lt (s : str) (k : nat) :
  find_close s = Some k -> (k < length s)%nat.
Proof.
  intros H. destruct (find_close_Some s k H) as [Hs _].
  apply (f_equal length) in Hs. rewrite length_app in Hs. simpl in Hs.
  rewrite length_take in Hs. lia.
Qed.

Lemma find_close_None (s : str) : find_close s = None <-> RBRACE ∉ s.
Proof.
  induction s as [|c s IH]; simpl.
  - split; [intros _; apply not_elem_of_nil | done].
  - rewrite not_elem_of_cons. destruct (N.eqb_spec c RBRACE) as [->|Hc].
    + split; [done | intros [? _]; done].
    + destruct (find_close s); simpl.
      * split; [done|]. intros [_ H]. by apply IH in H.
      * split; [|done]. intros _. split; [congruence | by apply IH].
Qed.

Lemma find_close_token (name rest : str) :
  RBRACE ∉ name -> find_close (name ++ RBRACE :: rest) = Some (length name).
Proof.
  induction name as [|c name IH]; simpl; intros Hn.
  - try rewrite N.eqb_refl; done.
  - apply not_elem_of_cons in Hn as [Hc Hn].
    destruct (N.eqb_spec c RBRACE); [congruence|]. by rewrite IH.
Qed.

Lemma find_close_app_l (s1 s2 : str) (k : nat) :
  find_close s1 = Some k -> find_close (s1 ++ s2) = Some k.
Proof.
  revert k. induction s1 as [|c s1 IH]; intros k; simpl; [done|].
  destruct (c =? RBRACE); [done|].
  destruct (find_close s1) as [k'|]; simpl; [|done].
  intros [= <-]. by rewrite (IH k').
Qed.

Lemma find_close_app_inv (s1 s2 : str) (k : nat) :
  find_close (s1 ++ s2) = Some k -> (k < length s1)%nat -> find_close s1 = Some k.
Proof.
  revert k. induction s1 as [|c s1 IH]; intros k; simpl; [lia|].
  destruct (c =? RBRACE); [done|].
  destruct (find_close (s1 ++ s2)) as [k'|] eqn:Hk; simpl; [|done].
  intros [= <-] Hlt. rewrite (IH k'); [done | done | lia].
Qed.

(** ** Fuel: the length of the text is enough *)

Lemma scan_fuel (f f' off : nat) (s : str) :
  (length s <= f)%nat -> (length s <= f')%nat -> scan f off s = scan f' off s.
Proof.
  revert f' off s. induction f as [|f IH]; intros [|f'] off [|c rest];
    simpl; intros Hf Hf'; try done; try lia.
  destruct (c =? LBRACE); [|apply IH; lia].
  destruct (find_close rest) as [[|j]|]; try (apply IH; lia).
  f_equal. apply IH; rewrite length_skipn; lia.
Qed.

Section KeysUnfold.

Variable upper : str -> str.

Lemma parse_rec_fuel (f f' : nat) (s : str) :
  (length s <= f)%nat -> (length s <= f')%nat ->
  parse_rec upper f s = parse_rec upper f' s.
Proof.
  revert f' s. induction f as [|f IH]; intros [|f'] [|c rest];
    simpl; intros Hf Hf'; try done; try lia.
  destruct (c =? LBRACE); [|f_equal; apply IH; lia].
  destruct (find_close rest) as [[|j]|]; try (f_equal; apply IH; lia).
  f_equal. apply IH; rewrite length_skipn; lia.
Qed.

(** One pass of the loop body adds the text before the token and then the
    token's output. *)
Lemma loop_body_cat (input : str) (acc : bytes) (pos : nat) (m : Match) :
  loop_body upper input (acc, pos) m
  = (x ← cat (cat (Ok acc) (encode_utf8 (slice input pos (m_start m))))
             (emit upper (group1 m));
     mret (x, m_end m)).
Proof.
  unfold loop_body, emit, slice.
  destruct (Nat.ltb_spec pos (m_start m)) as [Hlt|Hge].
  - destruct (encode_utf8 (firstn _ _)) as [x|e]; [|by result_simpl].
    destruct (dict_get SPECIAL_KEYS _); [by result_simpl|].
    destruct (encode_utf8 (_ ++ _)); by result_simpl.
  - replace (m_start m - pos)%nat with 0%nat by lia.
    rewrite firstn_O. cbn [encode_utf8].
    destruct (dict_get SPECIAL_KEYS _); [by result_simpl; rewrite app_nil_r|].
    destruct (encode_utf8 (_ ++ _)); result_simpl; by rewrite ?app_nil_r.
Qed.

(** The loop, started anywhere before the text still to scan, puts out
    the pending text and then what the recursion says. *)
Lemma run_parse_rec (f : nat) (s pre : str) (acc : bytes) (pos : nat) :
  (length s <= f)%nat -> (pos <= length pre)%nat ->
  run upper (pre ++ s) (acc, pos) (scan f (length pre) s)
  = cat (Ok acc) (cat (encode_utf8 (skipn pos pre)) (parse_rec upper f s)).
Proof.
  revert s pre acc pos. induction f as [|f IH]; intros s pre acc pos Hf Hpos.
  - destruct s; [|simpl in Hf; lia]. simpl. rewrite app_nil_r.
    unfold run; simpl. rewrite cat_nil_r.
    destruct (Nat.ltb_spec pos (length pre)) as [Hlt|Hge]; [done|].
    rewrite skipn_all2 by lia. simpl. by rewrite cat_Ok, app_nil_r.
  - destruct s as [|c rest].
    { simpl. rewrite app_nil_r. unfold run; simpl. rewrite cat_nil_r.
      destruct (Nat.ltb_spec pos (length pre)) as [Hlt|Hge]; [done|].
      rewrite skipn_all2 by lia. simpl. by rewrite cat_Ok, app_nil_r. }
    simpl in Hf.
    assert (Hstep : run upper (pre ++ c :: rest) (acc, pos)
                      (scan f (S (length pre)) rest)
                    = cat (Ok acc) (cat (encode_utf8 (skipn pos pre))
                        (cat (encode_codepoint c) (parse_rec upper f rest)))).
    { replace (pre ++ c :: rest) with ((pre ++ [c]) ++ rest)
        by (by rewrite <- app_assoc).
      replace (S (length pre)) with (length (pre ++ [c]))
        by (rewrite length_app; simpl; lia).
      rewrite IH; [|lia|rewrite length_app; simpl; lia].
      rewrite skipn_app. replace (pos - length pre)%nat with 0%nat by lia.
      simpl. rewrite encode_utf8_app, encode_utf8_one. by rewrite cat_assoc. }
    simpl. destruct (c =? LBRACE) eqn:Hc; [|exact Hstep].
    destruct (find_close rest) as [[|j]|] eqn:Hfc; try exact Hstep.
    apply N.eqb_eq in Hc as ->.
    pose proof (find_close_lt _ _ Hfc) as Hj.
    set (name := firstn (S j) rest). set (rest' := skipn (S j + 1) rest).
    set (pre' := pre ++ LBRACE :: firstn (S j + 1) rest).
    assert (Hin : pre ++ LBRACE :: rest = pre' ++ rest').
    { unfold pre', rest'. rewrite <- app_assoc. simpl.
      by rewrite firstn_skipn. }
    assert (Hlen : length pre' = (length pre + S j + 2)%nat).
    { unfold pre'. rewrite length_app. simpl. rewrite length_take. lia. }
    assert (Htxt : slice (pre ++ LBRACE :: rest) pos (length pre) = skipn pos pre).
    { unfold slice. rewrite skipn_app.
      replace (pos - length pre)%nat with 0%nat by lia. simpl.
      rewrite firstn_app, length_skipn.
      replace (length pre - pos - (length pre - pos))%nat with 0%nat by lia.
      simpl. rewrite app_nil_r. apply firstn_all2. rewrite length_skipn. lia. }
    unfold run. cbn [for_each]. rewrite loop_body_cat. cbn [m_start m_end group1].
    rewrite Htxt. fold name. change (skipn (S (j + 1)) rest) with rest'.
    destruct (cat (cat (Ok acc) (encode_utf8 (skipn pos pre))) (emit upper name))
      as [y|e] eqn:Hy.
    + cbn [mbind result_bind bind mret result_ret].
      match goal with
      | |- ?lhs = _ =>
        change lhs with (run upper (pre ++ LBRACE :: rest)
                           (y, (length pre + S j + 2)%nat)
                           (scan f (length pre + S j + 2) rest'))
      end.
      rewrite Hin, <- Hlen, IH;
        [|unfold rest'; rewrite length_skipn; lia|lia].
      rewrite skipn_all2 by lia. cbn [encode_utf8]. rewrite cat_nil_l.
      by rewrite <- Hy, !cat_assoc.
    + cbn [mbind result_bind bind].
      rewrite <- !cat_assoc, Hy. done.
Qed.

End KeysUnfold.

(** ** The scan, one step at a time *)

Lemma scan_cons_char (off : nat) (c : codepoint) (rest : str) :
  c <> LBRACE ->
  scan (length (c :: rest)) off (c :: rest) = scan (length rest) (S off) rest.
Proof. intros Hc. simpl. by destruct (N.eqb_spec c LBRACE). Qed.

Lemma scan_cons_brace (off : nat) (rest : str) :
  find_close rest = None \/ find_close rest = Some 0%nat ->
  scan (length (LBRACE :: rest)) off (LBRACE :: rest)
  = scan (length rest) (S off) rest.
Proof. intros [H|H]; simpl; by rewrite H. Qed.

Lemma scan_cons_match (off j : nat) (rest : str) :
  find_close rest = Some (S j) ->
  scan (length (LBRACE :: rest)) off (LBRACE :: rest)
  = {| m_start := off; m_end := off + S j + 2; group1 := firstn (S j) rest |}
      :: scan (length (skipn (S j + 1) rest)) (off + S j + 2)
           (skipn (S j + 1) rest).
Proof.
  intros H. simpl. rewrite H. f_equal.
  apply scan_fuel; [rewrite length_skipn; lia | done].
Qed.

(** ** The encoder, one step at a time *)

Section KeysEquations.

Variable upper : str -> str.

Lemma parse_keys_rec (s : str) :
  parse_keys upper s = parse_rec upper (length s) s.
Proof.
  pose proof (run_parse_rec upper (length s) s [] [] 0) as H.
  simpl in H. rewrite !cat_nil_l in H. apply H; lia.
Qed.

Lemma parse_keys_nil : parse_keys upper [] = Ok [].
Proof. reflexivity. Qed.

Lemma parse_keys_char (c : codepoint) (rest : str) :
  c <> LBRACE ->
  parse_keys upper (c :: rest)
  = cat (encode_codepoint c) (parse_keys upper rest).
Proof.
  intros Hc. rewrite !parse_keys_rec. simpl.
  by destruct (N.eqb_spec c LBRACE).
Qed.

Lemma parse_keys_brace (rest : str) :
  find_close rest = None \/ find_close rest = Some 0%nat ->
  parse_keys upper (LBRACE :: rest)
  = cat (encode_codepoint LBRACE) (parse_keys upper rest).
Proof. intros [H|H]; rewrite !parse_keys_rec; simpl; by rewrite H. Qed.

Lemma parse_keys_match (j : nat) (rest : str) :
  find_close rest = Some (S j) ->
  parse_keys upper (LBRACE :: rest)
  = cat (emit upper (firstn (S j) rest))
        (parse_keys upper (skipn (S j + 1) rest)).
Proof.
  intros H. rewrite !parse_keys_rec. simpl. rewrite H. f_equal.
  apply parse_rec_fuel; [rewrite length_skipn; lia | done].
Qed.

(** A token, whatever follows it. *)
Lemma parse_keys_token (name rest : str) :
  name <> [] -> RBRACE ∉ name ->
  parse_keys upper (LBRACE :: name ++ RBRACE :: rest)
  = cat (emit upper name) (parse_keys upper rest).
Proof.
  intros Hne Hn. destruct name as [|c name]; [done|].
  rewrite (parse_keys_match (length name)).
  - change (S (length name)) with (length (c :: name)).
    rewrite firstn_app, firstn_all, Nat.sub_diag. simpl firstn at 1.
    rewrite app_nil_r. f_equal. f_equal.
    replace (length (c :: name) + 1)%nat with (length (c :: name) + 1 + 0)%nat by lia.
    rewrite skipn_app.
    rewrite skipn_all2 by (simpl; lia). simpl length.
    replace (S (length name) + 1 + 0 - S (length name))%nat with 1%nat by lia.
    done.
  - by rewrite (find_close_token (c :: name) rest Hn).
Qed.

(** Text without an opening brace, whatever follows it. *)
Lemma parse_keys_text (text rest : str) :
  LBRACE ∉ text ->
  parse_keys upper (text ++ rest)
  = cat (encode_utf8 text) (parse_keys upper rest).
Proof.
  induction text as [|c text IH]; intros Hn; simpl.
  - by rewrite cat_nil_l.
  - apply not_elem_of_cons in Hn as [Hc Hn].
    rewrite parse_keys_char, IH, cat_assoc by done. done.
Qed.

(** When no token of the text is a key, the text comes out as it is. *)
Lemma parse_keys_verbatim (n off : nat) (s : str) :
  (length s <= n)%nat ->
  (forall m, m ∈ scan (length s) off s ->
             dict_get SPECIAL_KEYS (upper (group1 m)) = None) ->
  parse_keys upper s = encode_utf8 s.
Proof.
  revert off s. induction n as [|n IH]; intros off [|c rest] Hn Hm;
    try done; try (simpl in Hn; lia).
  simpl in Hn. destruct (N.eq_dec c LBRACE) as [->|Hc].
  - destruct (find_close rest) as [[|j]|] eqn:Hfc.
    + rewrite parse_keys_brace by auto. rewrite scan_cons_brace in Hm by auto.
      simpl. f_equal. apply (IH (S off)); [lia | done].
    + rewrite (parse_keys_match j) by done.
      rewrite (scan_cons_match off j) in Hm by done.
      pose proof (find_close_lt _ _ Hfc) as Hj.
      rewrite (IH (off + S j + 2)%nat);
        [|rewrite length_skipn; lia|intros m Hin; apply Hm; by right].
      unfold emit.
      pose proof (Hm _ (list_elem_of_here _ _)) as Hu. cbn [group1] in Hu.
      rewrite Hu.
      destruct (find_close_Some _ _ Hfc) as [Hs _].
      rewrite <- encode_utf8_app. f_equal. simpl. f_equal.
      rewrite Hs at 3. rewrite <- app_assoc. simpl.
      by replace (j + 1)%nat with (S j) by lia.
    + rewrite parse_keys_brace by auto. rewrite scan_cons_brace in Hm by auto.
      simpl. f_equal. apply (IH (S off)); [lia | done].
  - rewrite parse_keys_char by done. rewrite scan_cons_char in Hm by done.
    simpl. f_equal. apply (IH (S off)); [lia | done].
Qed.

End KeysEquations.

(** ** The key table *)

Lemma SPECIAL_KEYS_entries : forallb (key_entry SPECIAL_KEYS) SPECIAL_KEYS = true.
Proof. vm_compute. reflexivity. Qed.

Lemma SPECIAL_KEYS_entry (name : str) (v : bytes) :
  (name, v) ∈ SPECIAL_KEYS ->
  name <> [] /\ Forall (fun d => key_char d = true) name
  /\ dict_get SPECIAL_KEYS name = Some v.
Proof.
  intros Hin. apply list_elem_of_In in Hin.
  pose proof (proj1 (forallb_forall _ _) SPECIAL_KEYS_entries _ Hin) as H.
  unfold key_entry in H. cbn [fst snd] in H.
  apply andb_true_iff in H as [H Hget]. apply andb_true_iff in H as [Hne Hch].
  apply bool_decide_eq_true in Hget. apply negb_true_iff in Hne.
  apply bool_decide_eq_false in Hne. split; [done|]. split; [|done].
  apply Forall_forall. intros d Hd. apply list_elem_of_In in Hd.
  exact (proj1 (forallb_forall _ _) Hch d Hd).
Qed.

Lemma casing_of_key (name t : str) :
  Forall (fun d => key_char d = true) name -> casing_of name t ->
  (RBRACE ∉ t) /\ Forall (fun c => is_ascii c = true) t /\ upper_ascii t = name.
Proof.
  intros Hk Hc. induction Hc as [|d c name t Hdc _ IH].
  - split; [apply not_elem_of_nil|]. by split.
  - apply Forall_cons in Hk as [Hd Hk]. destruct (IH Hk) as (Hn & Ha & Hu).
    unfold key_char in Hd.
    repeat (apply andb_true_iff in Hd as [Hd ?]).
    repeat match goal with
           | H : negb _ = true |- _ => apply negb_true_iff in H
           | H : (_ =? _) = true |- _ => apply N.eqb_eq in H
           | H : (_ =? _) = false |- _ => apply N.eqb_neq in H
           end.
    split; [|split].
    + rewrite not_elem_of_cons. split; [|done]. destruct Hdc; congruence.
    + constructor; [|done]. destruct Hdc; congruence.
    + unfold upper_ascii in *. simpl. rewrite Hu. f_equal.
      destruct Hdc; congruence.
Qed.

(** ** Claims about the key encoder *)

Section KeysClaims.

Variable upper : str -> str.

(** C7. For every name of the key table and every casing of it, the
    encoding of the name in braces is the name's byte sequence, when
    [upper] is upper-casing on ASCII text. *)
Theorem parse_keys_special_key (name t : str) (v : bytes) :
  (forall s, Forall (fun c => is_ascii c = true) s -> upper s = upper_ascii s) ->
  (name, v) ∈ SPECIAL_KEYS ->
  casing_of name t ->
  parse_keys upper ([LBRACE] ++ t ++ [RBRACE]) = Ok v.
Proof.
  intros Hup Hin Hc.
  destruct (SPECIAL_KEYS_entry name v Hin) as (Hne & Hk & Hget).
  destruct (casing_of_key name t Hk Hc) as (Hn & Ha & Hu).
  assert (Ht : t <> []).
  { intros ->. apply Forall2_length in Hc. by destruct name. }
  simpl. rewrite parse_keys_token, parse_keys_nil, cat_nil_r by done.
  unfold emit. by rewrite (Hup t Ha), Hu, Hget.
Qed.

(** C8 as amended. A token whose upper-cased name is not in the table
    comes out as it stands, braces included, as the UTF-8 bytes of its
    text; the text before a token and what follows it come out around it;
    text without an opening brace comes out as its UTF-8 bytes. An
    unknown token whose name is made of Unicode scalar values is not
    dropped and is no error: its bytes exist, are not empty, and stand in
    the output between those of the text before it and those of the
    rest. *)
Theorem parse_keys_unknown_token (text name rest : str) :
  LBRACE ∉ text ->
  name <> [] ->
  RBRACE ∉ name ->
  dict_get SPECIAL_KEYS (upper name) = None ->
  parse_keys upper ([LBRACE] ++ name ++ [RBRACE])
    = encode_utf8 ([LBRACE] ++ name ++ [RBRACE])
  /\ parse_keys upper (text ++ [LBRACE] ++ name ++ [RBRACE] ++ rest)
     = cat (encode_utf8 text)
         (cat (encode_utf8 ([LBRACE] ++ name ++ [RBRACE]))
              (parse_keys upper rest))
  /\ parse_keys upper text = encode_utf8 text
  /\ (Forall (fun c => is_scalar c = true) name ->
      exists out,
        encode_utf8 ([LBRACE] ++ name ++ [RBRACE]) = Ok out
        /\ out <> []
        /\ parse_keys upper ([LBRACE] ++ name ++ [RBRACE]) = Ok out
        /\ parse_keys upper (text ++ [LBRACE] ++ name ++ [RBRACE] ++ rest)
           = cat (encode_utf8 text) (cat (Ok out) (parse_keys upper rest))).
Proof.
  intros Htext Hne Hn Hget.
  assert (Hemit : emit upper name = encode_utf8 ([LBRACE] ++ name ++ [RBRACE])).
  { unfold emit. by rewrite Hget. }
  assert (Htok : parse_keys upper ([LBRACE] ++ name ++ [RBRACE])
                 = encode_utf8 ([LBRACE] ++ name ++ [RBRACE])).
  { cbn [app]. rewrite parse_keys_token, parse_keys_nil, cat_nil_r by done.
    exact Hemit. }
  assert (Hctx : parse_keys upper (text ++ [LBRACE] ++ name ++ [RBRACE] ++ rest)
                 = cat (encode_utf8 text)
                     (cat (encode_utf8 ([LBRACE] ++ name ++ [RBRACE]))
                        (parse_keys upper rest))).
  { rewrite parse_keys_text by done. cbn [app].
    by rewrite parse_keys_token, Hemit by done. }
  split; [exact Htok|]. split; [exact Hctx|]. split.
  - rewrite <- (app_nil_r text) at 1.
    by rewrite parse_keys_text, parse_keys_nil, cat_nil_r.
  - intros Hs. rewrite Htok, Hctx.
    destruct (encode_utf8_scalar ([LBRACE] ++ name ++ [RBRACE])) as [out Hout].
    { apply Forall_app. split; [by repeat constructor|].
      apply Forall_app. split; [done | by repeat constructor]. }
    exists out. rewrite Hout. split; [done|]. split; [|done]. intros ->.
    cbn in Hout. by destruct (encode_utf8 (name ++ [RBRACE])).
Qed.

(** Concatenation, with the offset of the first text made explicit. *)
Lemma parse_keys_app_from (n off : nat) (s1 s2 : str) :
  (length s1 <= n)%nat ->
  (forall m, m ∈ scan (length (s1 ++ s2)) off (s1 ++ s2) ->
             ~ (m_start m < off + length s1 < m_end m)%nat) ->
  parse_keys upper (s1 ++ s2)
  = cat (parse_keys upper s1) (parse_keys upper s2).
Proof.
  revert off s1. induction n as [|n IH]; intros off [|c r] Hn Hm;
    try (by rewrite parse_keys_nil, cat_nil_l); try (simpl in Hn; lia).
  simpl in Hn. cbn [app] in *.
  assert (Hshift : (forall m, m ∈ scan (length (r ++ s2)) (S off) (r ++ s2) ->
                      m ∈ scan (length (c :: r ++ s2)) off (c :: r ++ s2)) ->
                   parse_keys upper (r ++ s2)
                   = cat (parse_keys upper r) (parse_keys upper s2)).
  { intros Hsub. apply (IH (S off)); [lia|]. intros m Hin.
    specialize (Hm m (Hsub m Hin)). simpl in Hm. lia. }
  destruct (N.eq_dec c LBRACE) as [->|Hc].
  2:{ rewrite !parse_keys_char by done.
      rewrite Hshift; [by rewrite cat_assoc|].
      intros m. by rewrite scan_cons_char. }
  destruct (find_close (r ++ s2)) as [[|j]|] eqn:Hfc.
  - rewrite parse_keys_brace by auto. rewrite Hshift.
    + rewrite <- cat_assoc. f_equal. symmetry. apply parse_keys_brace.
      destruct r as [|d r]; [by left|]. right.
      simpl in Hfc |- *. destruct (d =? RBRACE); [done|].
      by destruct (find_close (r ++ s2)).
    + intros m. by rewrite scan_cons_brace by auto.
  - destruct (decide (S j < length r)%nat) as [Hlt|Hge].
    + pose proof (find_close_app_inv _ _ _ Hfc Hlt) as Hfr.
      rewrite (parse_keys_match upper j (r ++ s2)), (parse_keys_match upper j r)
        by done.
      rewrite firstn_app, skipn_app.
      replace (S j - length r)%nat with 0%nat by lia.
      replace (S j + 1 - length r)%nat with 0%nat by lia.
      rewrite firstn_O, app_nil_r, skipn_O, cat_assoc. f_equal.
      apply (IH (off + S j + 2)%nat); [rewrite length_skipn; lia|].
      intros m Hin. rewrite (scan_cons_match off j) in Hm by done.
      rewrite skipn_app in Hm.
      replace (S j + 1 - length r)%nat with 0%nat in Hm by lia.
      rewrite skipn_O in Hm. specialize (Hm m (list_elem_of_further _ _ _ Hin)).
      rewrite length_skipn. simpl in Hm. lia.
    + exfalso. rewrite (scan_cons_match off j) in Hm by done.
      apply (Hm _ (list_elem_of_here _ _)). simpl. lia.
  - rewrite parse_keys_brace by auto. rewrite Hshift.
    + rewrite <- cat_assoc. f_equal. symmetry. apply parse_keys_brace. left.
      apply find_close_None. apply find_close_None in Hfc.
      intros Hin. apply Hfc. apply elem_of_app. by left.
    + intros m. by rewrite scan_cons_brace by auto.
Qed.

(** C9. When no token of [s1 ++ s2] lies across the place where the two
    meet, the encoding of [s1 ++ s2] is the encoding of [s1] followed by
    that of [s2]; the empty text encodes to no bytes, and a text in which
    no token is found encodes to its UTF-8 bytes. *)
Theorem parse_keys_app (s1 s2 : str) :
  (forall m, m ∈ finditer (s1 ++ s2) ->
             ~ (m_start m < length s1 < m_end m)%nat) ->
  parse_keys upper (s1 ++ s2) = cat (parse_keys upper s1) (parse_keys upper s2)
  /\ parse_keys upper [] = Ok []
  /\ (finditer s1 = [] -> parse_keys upper s1 = encode_utf8 s1).
Proof.
  intros Hm. split; [|split].
  - apply (parse_keys_app_from (length s1) 0); [done|]. exact Hm.
  - apply parse_keys_nil.
  - intros Hnone. apply (parse_keys_verbatim upper (length s1) 0); [done|].
    fold (finditer s1). rewrite Hnone. intros m Hin.
    by apply not_elem_of_nil in Hin.
Qed.

Lemma parse_rec_scalar (f : nat) (s : str) :
  Forall (fun c => is_scalar c = true) s ->
  exists out, parse_rec upper f s = Ok out.
Proof.
  revert s. induction f as [|f IH]; intros [|c rest] Hs; simpl; eauto.
  apply Forall_cons in Hs as [Hc Hs].
  destruct (encode_codepoint_scalar c Hc) as [x Hx].
  destruct (IH rest Hs) as [y Hy].
  assert (Hlit : exists out,
             cat (encode_codepoint c) (parse_rec upper f rest) = Ok out).
  { rewrite Hx, Hy. eauto. }
  destruct (c =? LBRACE); [|exact Hlit].
  destruct (find_close rest) as [[|j]|]; try exact Hlit.
  destruct (IH (skipn (S j + 1) rest)) as [z Hz]; [by apply Forall_drop|].
  change (skipn (S (j + 1)) rest) with (skipn (S j + 1) rest). rewrite Hz.
  unfold emit. destruct (dict_get SPECIAL_KEYS _) as [v|]; [eauto|].
  destruct (encode_utf8_scalar ([LBRACE] ++ firstn (S j) rest ++ [RBRACE]))
    as [w Hw].
  { apply Forall_app. split; [by repeat constructor|].
    apply Forall_app. split; [by apply Forall_take | by repeat constructor]. }
  rewrite Hw. eauto.
Qed.

Lemma parse_keys_unclosed (t : str) :
  RBRACE ∉ t -> parse_keys upper t = encode_utf8 t.
Proof.
  induction t as [|c t IH]; intros Hn; [done|].
  apply not_elem_of_cons in Hn as [Hc Hn]. simpl.
  destruct (N.eq_dec c LBRACE) as [->|Hb].
  - rewrite parse_keys_brace, IH; [done | done |].
    left. by apply find_close_None.
  - by rewrite parse_keys_char, IH.
Qed.

(** Every input is made of pieces, and its encoding of theirs. *)
Lemma parse_keys_pieces (n : nat) (s : str) :
  (length s <= n)%nat ->
  exists ps,
    s = concat (piece_src <$> ps)
    /\ Forall (piece_ok upper) ps
    /\ parse_keys upper s = pieces_out ps.
Proof.
  revert s. induction n as [|n IH]; intros [|c rest] Hn;
    try (by exists []); try (simpl in Hn; lia).
  simpl in Hn.
  assert (Hlit : (parse_keys upper (c :: rest)
                  = cat (encode_codepoint c) (parse_keys upper rest)) ->
                 exists ps,
                   c :: rest = concat (piece_src <$> ps)
                   /\ Forall (piece_ok upper) ps
                   /\ parse_keys upper (c :: rest) = pieces_out ps).
  { intros Heq. destruct (IH rest) as (ps & Hsrc & Hok & Hout); [lia|].
    exists (Text [c] :: ps). split; [|split].
    - cbn [fmap list_fmap concat piece_src app]. by rewrite <- Hsrc.
    - by constructor.
    - rewrite Heq, Hout. cbn [pieces_out foldr piece_out].
      by rewrite encode_utf8_one. }
  destruct (N.eq_dec c LBRACE) as [->|Hc].
  2:{ apply Hlit. by apply parse_keys_char. }
  destruct (find_close rest) as [[|j]|] eqn:Hfc;
    [apply Hlit, parse_keys_brace; by right | | apply Hlit, parse_keys_brace; by left].
  pose proof (find_close_Some _ _ Hfc) as [Hrest _].
  pose proof (find_close_lt _ _ Hfc) as Hlt.
  destruct (IH (skipn (S j + 1) rest)) as (ps & Hsrc & Hok & Hout).
  { rewrite length_skipn. lia. }
  rewrite (parse_keys_match upper j rest Hfc), Hout.
  assert (Hsplit : LBRACE :: rest
                   = ([LBRACE] ++ firstn (S j) rest ++ [RBRACE])
                     ++ skipn (S j + 1) rest).
  { rewrite Hrest at 1. cbn [app]. rewrite <- app_assoc. cbn [app].
    by rewrite Nat.add_1_r. }
  unfold emit.
  destruct (dict_get SPECIAL_KEYS (upper (firstn (S j) rest))) as [v|] eqn:Hget.
  - exists (Key (firstn (S j) rest) v :: ps). split; [|split].
    + cbn [fmap list_fmap concat piece_src]. by rewrite <- Hsrc.
    + by constructor.
    + done.
  - exists (Text ([LBRACE] ++ firstn (S j) rest ++ [RBRACE]) :: ps).
    split; [|split].
    + cbn [fmap list_fmap concat piece_src]. by rewrite <- Hsrc.
    + by constructor.
    + done.
Qed.

(** C10 as amended. A text of Unicode scalar values is always encoded:
    the call returns. The empty brace pair and a text that opens a brace
    without closing it come out as they stand, and so does every text in
    which no token names a key. Nothing is lost: the text is made of
    pieces, each of them literal text or a token that names a key, and
    the output is made of theirs in the same order, the UTF-8 bytes of
    the literal text and the bytes of the key. *)
Theorem parse_keys_total_on_scalars (s t : str) :
  Forall (fun c => is_scalar c = true) s ->
  RBRACE ∉ t ->
  (exists out, parse_keys upper s = Ok out)
  /\ parse_keys upper [LBRACE; RBRACE] = Ok (b "{}")
  /\ parse_keys upper (LBRACE :: t) = encode_utf8 (LBRACE :: t)
  /\ ((forall m, m ∈ finditer s ->
                 dict_get SPECIAL_KEYS (upper (group1 m)) = None) ->
      parse_keys upper s = encode_utf8 s)
  /\ (exists ps outs,
        s = concat (piece_src <$> ps)
        /\ Forall (piece_ok upper) ps
        /\ Forall2 (fun p out => piece_out p = Ok out) ps outs
        /\ parse_keys upper s = Ok (concat outs)).
Proof.
  intros Hs Ht.
  assert (Hret : exists out, parse_keys upper s = Ok out).
  { rewrite parse_keys_rec. by apply parse_rec_scalar. }
  split; [exact Hret|]. split; [reflexivity|]. split; [|split].
  - apply parse_keys_unclosed. rewrite not_elem_of_cons. split; [done|done].
  - intros Hm. by apply (parse_keys_verbatim upper (length s) 0).
  - destruct Hret as [out Hout].
    destruct (parse_keys_pieces (length s) s) as (ps & Hsrc & Hok & Hps); [done|].
    rewrite Hout in Hps. exists ps.
    assert (Houts : exists outs,
               Forall2 (fun p out => piece_out p = Ok out) ps outs
               /\ out = concat outs).
    { clear Hsrc Hok Hout. revert out Hps.
      induction ps as [|p ps IH]; intros out Hps; cbn [pieces_out foldr] in Hps.
      - injection Hps as ->. by exists [].
      - fold (pieces_out ps) in Hps.
        destruct (piece_out p) as [x|] eqn:Hp; [|done].
        destruct (pieces_out ps) as [y|] eqn:Hy; [|done].
        rewrite cat_Ok in Hps. injection Hps as ->.
        destruct (IH y eq_refl) as (outs & Hall & ->).
        exists (x :: outs). split; [by constructor | done]. }
    destruct Houts as (outs & Hall & ->). by exists outs.
Qed.

End KeysClaims.

Lemma parse_keys_special_key_witness :
  parse_keys upper_ascii ([LBRACE] ++ u "eNtEr" ++ [RBRACE]) = Ok [x0d].
Proof.
  assert (Hin : (u "ENTER", [x0d]) ∈ SPECIAL_KEYS)
    by (vm_compute; apply list_elem_of_here).
  assert (Hc : casing_of (u "ENTER") (u "eNtEr")).
  { unfold casing_of. vm_compute.
    repeat (apply Forall2_cons; split;
            [first [left; reflexivity | right; reflexivity] |]).
    constructor. }
  exact (parse_keys_special_key upper_ascii _ _ _ (fun _ _ => eq_refl) Hin Hc).
Defined.

Lemma parse_keys_unknown_token_witness :
  parse_keys upper_ascii ([LBRACE] ++ u "FOO" ++ [RBRACE])
  = encode_utf8 ([LBRACE] ++ u "FOO" ++ [RBRACE])
  /\ exists out,
       encode_utf8 ([LBRACE] ++ u "FOO" ++ [RBRACE]) = Ok out
       /\ out <> []
       /\ parse_keys upper_ascii ([LBRACE] ++ u "FOO" ++ [RBRACE]) = Ok out
       /\ parse_keys upper_ascii
            (u "ab" ++ [LBRACE] ++ u "FOO" ++ [RBRACE] ++ u "c")
          = cat (encode_utf8 (u "ab"))
              (cat (Ok out) (parse_keys upper_ascii (u "c"))).
Proof.
  assert (Htext : LBRACE ∉ u "ab").
  { apply (bool_decide_unpack _). vm_compute. exact I. }
  assert (Hn : RBRACE ∉ u "FOO").
  { apply (bool_decide_unpack _). vm_compute. exact I. }
  assert (Hne : u "FOO" <> []) by discriminate.
  assert (Hget : dict_get SPECIAL_KEYS (upper_ascii (u "FOO")) = None)
    by (vm_compute; reflexivity).
  assert (Hs : Forall (fun c => is_scalar c = true) (u "FOO")).
  { apply (bool_decide_unpack _). vm_compute. exact I. }
  destruct (parse_keys_unknown_token upper_ascii (u "ab") (u "FOO") (u "c")
              Htext Hne Hn Hget) as (H1 & _ & _ & H4).
  split; [exact H1 | exact (H4 Hs)].
Defined.

(** C8 as stated fails: a token whose name is a lone surrogate is not in
    the table, and it is an error all the same: its text cannot be
    encoded. *)
Lemma parse_keys_unknown_surrogate_raises :
  dict_get SPECIAL_KEYS (upper_ascii [0xD800]) = None
  /\ (RBRACE ∉ [0xD800])
  /\ parse_keys upper_ascii ([LBRACE] ++ [0xD800] ++ [RBRACE])
     = Raise UnicodeEncodeError.
Proof.
  split; [vm_compute; reflexivity|]. split; [|vm_compute; reflexivity].
  apply (bool_decide_unpack _). vm_compute. exact I.
Qed.

Lemma parse_keys_app_witness :
  parse_keys upper_ascii (u "ab{TAB}" ++ u "c{x")
  = cat (parse_keys upper_ascii (u "ab{TAB}")) (parse_keys upper_ascii (u "c{x")).
Proof.
  assert (Hm : forall m, m ∈ finditer (u "ab{TAB}" ++ u "c{x") ->
                 ~ (m_start m < length (u "ab{TAB}") < m_end m)%nat).
  { intros m Hin. vm_compute in Hin. apply list_elem_of_singleton in Hin.
    subst m. vm_compute. lia. }
  exact (proj1 (parse_keys_app upper_ascii (u "ab{TAB}") (u "c{x") Hm)).
Defined.

Lemma parse_keys_total_on_scalars_witness :
  exists out, parse_keys upper_ascii (u "a{b}") = Ok out.
Proof.
  assert (Hs : Forall (fun c => is_scalar c = true) (u "a{b}")).
  { apply (bool_decide_unpack _). vm_compute. exact I. }
  assert (Ht : RBRACE ∉ u "ENTER").
  { apply (bool_decide_unpack _). vm_compute. exact I. }
  exact (proj1 (parse_keys_total_on_scalars upper_ascii (u "a{b}") (u "ENTER")
                  Hs Ht)).
Defined.

(** C10 as stated fails: a text that holds a lone surrogate cannot be
    encoded as UTF-8, and the call raises. *)
Lemma parse_keys_surrogate_raises :
  parse_keys upper_ascii [0xD800] = Raise UnicodeEncodeError.
Proof. vm_compute. reflexivity. Qed.

(** The examples of the specification. *)
Example parse_keys_examples :
  parse_keys upper_ascii (u "{ENTER}") = Ok [x0d]
  /\ parse_keys upper_ascii (u "{CTRL+A}") = Ok [x01]
  /\ parse_keys upper_ascii (u "{ctrl+z}") = Ok [x1a]
  /\ parse_keys upper_ascii (u "{F5}") = Ok (x1b :: b "[15~")
  /\ parse_keys upper_ascii (u "{FOO}") = Ok (b "{FOO}")
  /\ parse_keys upper_ascii (u "") = Ok []
  /\ parse_keys upper_ascii (u "hello") = Ok (b "hello")
  /\ parse_keys upper_ascii (u "{}") = Ok (b "{}")
  /\ parse_keys upper_ascii (u "{ENTER") = Ok (b "{ENTER")
  /\ parse_keys upper_ascii (u "test{TAB}more{ENTER}") = Ok (b "test" ++ [x09] ++ b "more" ++ [x0d]).
Proof. vm_compute. repeat split. Qed.

(* ===================================================================== *)
(** * Part III: the terminal session *)
(* ===================================================================== *)

Ltac m_simpl :=
  cbv beta iota zeta delta
    [mbind mret M_bind M_ret try_except_OSError
     TUISession.in_world TUISession.get_self TUISession.set_self];
  cbn [TUISession.self TUISession.world fst snd].

Lemma bind_Ok {St A B} (m : M St A) (k : A -> M St B) (st st' : St) (a : A) :
  m st = (Ok a, st') -> mbind k m st = k a st'.
Proof. intros H. unfold mbind, M_bind. by rewrite H. Qed.

Lemma bind_Raise {St A B} (m : M St A) (k : A -> M St B) (st st' : St) (e : exn) :
  m st = (Raise e, st') -> mbind k m st = (Raise e, st').
Proof. intros H. unfold mbind, M_bind. by rewrite H. Qed.

Lemma try_Ok {St A} (body h : M St A) (st st' : St) (a : A) :
  body st = (Ok a, st') -> try_except_OSError body h st = (Ok a, st').
Proof. intros H. unfold try_except_OSError. by rewrite H. Qed.

Lemma try_OSError {St A} (body h : M St A) (st st' : St) (e : errno) :
  body st = (Raise (OSError e), st') -> try_except_OSError body h st = h st'.
Proof. intros H. unfold try_except_OSError. by rewrite H. Qed.

Lemma os_kill_eq (env : Env) (pid : Z) (sig : signal) (w : World) :
  os_kill env pid sig w
  = (of_fault (kill_fault env (now w) pid sig),
     log w (match sig with SIG0 => 0 | _ => 1 end) (open_fds w)
       (EvKill pid sig (of_fault (kill_fault env (now w) pid sig)))).
Proof. reflexivity. Qed.

Lemma since_app (w w' : World) (d : list event) :
  trace w' = trace w ++ d -> since w w' = d.
Proof. intros H. unfold since. rewrite H. apply drop_app_length. Qed.

Lemma trace_log (w : World) (t : nat) (fds : gset Z) (e : event) :
  trace (log w t fds e) = trace w ++ [e].
Proof. reflexivity. Qed.

(** One round of the wait in [close]: a probe that finds the process, and
    a tenth of a second of sleep. *)
Abbreviation round p := [EvKill p SIG0 (Ok tt); EvSleep 100].

Lemma elem_of_rounds (x : event) (p : Z) (k : nat) :
  x ∈ concat (replicate k (round p)) -> x ∈ round p.
Proof.
  induction k as [|k IH]; simpl; [by intros ?%not_elem_of_nil|].
  intros H. apply elem_of_cons in H as [->|H]; [apply list_elem_of_here|].
  apply elem_of_cons in H as [->|H];
    [apply list_elem_of_further, list_elem_of_here|].
  by apply IH.
Qed.

Section SessionFacts.

Variable env : Env.

Lemma is_alive_eq (s : TUISession.t) (w : World) :
  TUISession.is_alive env s w
  = (Ok (bool_decide (kill_fault env (now w) (TUISession.pid s) SIG0 = None)),
     log w 0 (open_fds w)
       (EvKill (TUISession.pid s) SIG0
          (of_fault (kill_fault env (now w) (TUISession.pid s) SIG0)))).
Proof.
  unfold TUISession.is_alive, os_kill. m_simpl.
  by destruct (kill_fault env (now w) (TUISession.pid s) SIG0).
Qed.

Lemma poll_cases (s : TUISession.t) (n : nat) (w : World) :
  exists w', open_fds w' = open_fds w /\
    ((TUISession.poll env s n w = (Ok true, w')
      /\ trace w' = trace w ++ concat (replicate n (round (TUISession.pid s))))
     \/ (exists k e, (k < n)%nat
         /\ TUISession.poll env s n w = (Ok false, w')
         /\ trace w' = trace w ++ concat (replicate k (round (TUISession.pid s)))
                         ++ [EvKill (TUISession.pid s) SIG0 (Raise (OSError e))])).
Proof.
  revert w. induction n as [|n IH]; intros w.
  - exists w. split; [done|]. left. split; [done|]. simpl. by rewrite app_nil_r.
  - cbn [TUISession.poll]. unfold os_kill, sleep. m_simpl.
    destruct (kill_fault env (now w) (TUISession.pid s) SIG0) as [e|] eqn:Hk;
      cbn [of_fault]; m_simpl.
    + eexists. split; [|right; exists 0%nat, e; split; [lia|]; split; [done|]].
      * done.
      * done.
    + match goal with
      | |- context [TUISession.poll env s n ?w1] =>
        destruct (IH w1) as (w' & Hfds & Hcases)
      end.
      exists w'. split; [by rewrite Hfds|].
      destruct Hcases as [[Hp Ht]|(k & e & Hlt & Hp & Ht)].
      * left. rewrite Hp. split; [done|]. rewrite Ht. cbn [trace log].
        cbn [replicate concat]. by rewrite <- !app_assoc.
      * right. exists (S k), e. split; [lia|]. rewrite Hp. split; [done|].
        rewrite Ht. cbn [trace log]. cbn [replicate concat].
        by rewrite <- !app_assoc.
Qed.

(** Every way [close] can go. *)
Lemma close_cases (s : TUISession.t) (w : World) :
  let p := TUISession.pid s in
  exists w' c d,
    TUISession.close env s w = (Ok tt, w')
    /\ open_fds w' = open_fds w ∖ {[TUISession.fd s]}
    /\ c = (if decide (TUISession.fd s ∈ open_fds w)
            then of_fault (close_fault env (now w) (TUISession.fd s))
            else Raise (OSError EBADF))
    /\ trace w' = trace w ++ EvClose (TUISession.fd s) c :: d
    /\ ((exists e, d = [EvKill p SIG0 (Raise (OSError e))])
        \/ (exists e, d = [EvKill p SIG0 (Ok tt);
                           EvKill p SIGTERM (Raise (OSError e))])
        \/ (exists k e, (k < 10)%nat
            /\ d = EvKill p SIG0 (Ok tt) :: EvKill p SIGTERM (Ok tt)
                   :: concat (replicate k (round p))
                   ++ [EvKill p SIG0 (Raise (OSError e))])
        \/ (exists r, d = EvKill p SIG0 (Ok tt) :: EvKill p SIGTERM (Ok tt)
                          :: concat (replicate 10 (round p))
                          ++ [EvKill p SIGKILL r])).
Proof.
  intros p. unfold TUISession.close.
  remember (if decide (TUISession.fd s ∈ open_fds w)
            then of_fault (close_fault env (now w) (TUISession.fd s))
            else Raise (OSError EBADF)) as c eqn:Hc.
  remember (log w 1 (open_fds w ∖ {[TUISession.fd s]})
              (EvClose (TUISession.fd s) c)) as w0 eqn:Hw0.
  assert (Hclose : try_except_OSError (os_close env (TUISession.fd s)) (mret tt) w
                   = (Ok tt, w0)).
  { unfold try_except_OSError, os_close. cbv beta zeta.
    rewrite <- Hc, <- Hw0.
    destruct c as [[]|[e| |n]]; try done; exfalso;
      destruct (decide _); try done;
      by destruct (close_fault env (now w) (TUISession.fd s)). }
  assert (Hf0 : open_fds w0 = open_fds w ∖ {[TUISession.fd s]}) by by subst w0.
  assert (Ht0 : trace w0 = trace w ++ [EvClose (TUISession.fd s) c]) by by subst w0.
  clear Hw0.
  rewrite (bind_Ok _ _ _ _ _ Hclose).
  rewrite (bind_Ok _ _ _ _ _ (is_alive_eq s w0)).
  remember (log w0 0 (open_fds w0) _) as w1 eqn:Hw1.
  assert (Hf1 : open_fds w1 = open_fds w0) by by subst w1.
  assert (Hn1 : now w1 = (now w0 + 0)%nat) by by subst w1.
  destruct (kill_fault env (now w0) (TUISession.pid s) SIG0) as [e|] eqn:Hprobe.
  { rewrite bool_decide_eq_false_2 by done. m_simpl.
    exists w1, c, [EvKill p SIG0 (Raise (OSError e))].
    split; [done|]. split; [by rewrite Hf1|]. split; [done|].
    split; [subst w1; cbn [trace log of_fault]; by rewrite Ht0, <- app_assoc|].
    left. by exists e. }
  assert (Ht1 : trace w1 = trace w ++ [EvClose (TUISession.fd s) c;
                                       EvKill p SIG0 (Ok tt)]).
  { subst w1. cbn [trace log of_fault]. by rewrite Ht0, <- app_assoc. }
  clear Hw1. rewrite bool_decide_eq_true_2 by done.
  match goal with
  | |- context [try_except_OSError ?body _ w1] => set (BODY := body)
  end.
  destruct (kill_fault env (now w1) (TUISession.pid s) SIGTERM) as [e|] eqn:Hterm.
  { assert (Hbody : BODY w1 = (Raise (OSError e),
                     log w1 1 (open_fds w1)
                       (EvKill p SIGTERM (Raise (OSError e))))).
    { unfold BODY. apply bind_Raise. by rewrite os_kill_eq, Hterm. }
    rewrite (try_OSError _ _ _ _ _ Hbody).
    eexists _, c, [EvKill p SIG0 (Ok tt); EvKill p SIGTERM (Raise (OSError e))].
    split; [done|]. split; [cbn [open_fds log]; by rewrite Hf1|].
    split; [done|]. split; [cbn [trace log]; by rewrite Ht1, <- app_assoc|].
    right. left. by exists e. }
  remember (log w1 1 (open_fds w1) (EvKill p SIGTERM (Ok tt))) as w2 eqn:Hw2.
  assert (Hf2 : open_fds w2 = open_fds w1) by by subst w2.
  assert (Ht2 : trace w2 = trace w ++ [EvClose (TUISession.fd s) c;
                                       EvKill p SIG0 (Ok tt);
                                       EvKill p SIGTERM (Ok tt)]).
  { subst w2. cbn [trace log]. by rewrite Ht1, <- app_assoc. }
  assert (Hterm' : os_kill env (TUISession.pid s) SIGTERM w1 = (Ok tt, w2)).
  { by rewrite os_kill_eq, Hterm, Hw2. }
  clear Hw2.
  destruct (poll_cases s 10 w2) as (w3 & Hfds & [[Hp Ht]|(k & e & Hlt & Hp & Ht)]).
  - remember (of_fault (kill_fault env (now w3) (TUISession.pid s) SIGKILL))
      as r eqn:Hr.
    remember (log w3 1 (open_fds w3) (EvKill p SIGKILL r)) as w4 eqn:Hw4.
    assert (Hbody : BODY w1 = (r, w4)).
    { unfold BODY. rewrite (bind_Ok _ _ _ _ _ Hterm'), (bind_Ok _ _ _ _ _ Hp).
      by rewrite os_kill_eq, <- Hr, Hw4. }
    exists w4, c,
      (EvKill p SIG0 (Ok tt) :: EvKill p SIGTERM (Ok tt)
       :: concat (replicate 10 (round p)) ++ [EvKill p SIGKILL r]).
    split; [|split; [|split; [|split]]].
    + destruct (kill_fault env (now w3) (TUISession.pid s) SIGKILL) as [e|];
        cbn [of_fault] in Hr; subst r.
      * by rewrite (try_OSError _ _ _ _ _ Hbody).
      * by rewrite (try_Ok _ _ _ _ _ Hbody).
    + subst w4. cbn [open_fds log]. by rewrite Hfds, Hf2, Hf1.
    + done.
    + subst w4. cbn [trace log]. rewrite Ht, Ht2. by rewrite <- !app_assoc.
    + do 3 right. by exists r.
  - assert (Hbody : BODY w1 = (Ok tt, w3)).
    { unfold BODY. by rewrite (bind_Ok _ _ _ _ _ Hterm'), (bind_Ok _ _ _ _ _ Hp). }
    rewrite (try_Ok _ _ _ _ _ Hbody).
    exists w3, c, (EvKill p SIG0 (Ok tt) :: EvKill p SIGTERM (Ok tt)
                   :: concat (replicate k (round p))
                   ++ [EvKill p SIG0 (Raise (OSError e))]).
    split; [done|]. split; [by rewrite Hfds, Hf2, Hf1|]. split; [done|].
    split; [rewrite Ht, Ht2; by rewrite <- !app_assoc|].
    right. right. left. by exists k, e.
Qed.

Lemma sigkill_is_last (p : Z) (r : result unit) (k : nat) (z : event) :
  EvKill p SIGKILL r
    ∈ EvKill p SIG0 (Ok tt) :: EvKill p SIGTERM (Ok tt)
      :: concat (replicate k (round p)) ++ [z] ->
  z = EvKill p SIGKILL r.
Proof.
  intros H. apply elem_of_cons in H as [?|H]; [done|].
  apply elem_of_cons in H as [?|H]; [done|].
  apply elem_of_app in H as [H|H].
  - apply elem_of_rounds in H. apply elem_of_cons in H as [?|H]; [done|].
    apply elem_of_cons in H as [?|H]; [done|]. by apply not_elem_of_nil in H.
  - by apply list_elem_of_singleton in H.
Qed.

(** What [is_alive] answers: alive exactly when the probe met no error
    at all. *)
Lemma is_alive_dead_on_any_error (s : TUISession.t) (w : World) :
  (TUISession.is_alive env s w).1
  = Ok (bool_decide (kill_fault env (now w) (TUISession.pid s) SIG0 = None)).
Proof. by rewrite is_alive_eq. Qed.

Lemma close_returns (s : TUISession.t) (w : World) :
  (TUISession.close env s w).1 = Ok tt.
Proof. destruct (close_cases s w) as (w' & c & d & -> & _). done. Qed.

(** C1 as amended. [close] never raises, whatever the operating system
    answers. It releases the descriptor number that the session holds,
    and the session goes on holding the number: a later [close], in any
    state in which that number is not open, finds the descriptor gone
    ([EBADF], swallowed) and releases nothing. And when SIGKILL was sent,
    the calls before it were the close of the descriptor, a probe that
    found the process, a delivered SIGTERM, and ten rounds of a probe
    that found the process and 100 ms of sleep. *)
Theorem close_never_raises (s : TUISession.t) (w w' : World) :
  let p := TUISession.pid s in
  let w1 := (TUISession.close env s w).2 in
  let w2 := (TUISession.close env s w').2 in
  (TUISession.close env s w).1 = Ok tt
  /\ open_fds w1 = open_fds w ∖ {[TUISession.fd s]}
  /\ (TUISession.fd s ∉ open_fds w1)
  /\ (TUISession.fd s ∉ open_fds w' ->
      (TUISession.close env s w').1 = Ok tt
      /\ open_fds w2 = open_fds w'
      /\ exists d, since w' w2
                   = EvClose (TUISession.fd s) (Raise (OSError EBADF)) :: d)
  /\ (forall r, EvKill p SIGKILL r ∈ since w w1 ->
        exists c, since w w1
                  = EvClose (TUISession.fd s) c
                    :: EvKill p SIG0 (Ok tt) :: EvKill p SIGTERM (Ok tt)
                    :: concat (replicate 10 (round p)) ++ [EvKill p SIGKILL r]).
Proof.
  intros p w1 w2. subst w1 w2.
  destruct (close_cases s w) as (w1 & c & d & -> & Hf1 & Hc & Ht1 & Hd).
  cbn [fst snd].
  destruct (close_cases s w') as (w2 & c2 & d2 & -> & Hf2 & Hc2 & Ht2 & _).
  cbn [fst snd].
  split; [done|]. split; [done|]. split; [rewrite Hf1; set_solver|]. split.
  - intros Hgone. split; [done|]. split; [rewrite Hf2; set_solver|].
    exists d2. rewrite (since_app _ _ _ Ht2). f_equal. rewrite Hc2.
    by rewrite decide_False.
  - intros r Hin. exists c. rewrite (since_app _ _ _ Ht1) in Hin |- *.
    f_equal. apply elem_of_cons in Hin as [?|Hin]; [done|]. fold p in Hd.
    destruct Hd as [[e ->]|[[e ->]|[(k & e & _ & ->)|[r' ->]]]].
    + apply list_elem_of_singleton in Hin. done.
    + apply elem_of_cons in Hin as [?|Hin]; [done|].
      by apply list_elem_of_singleton in Hin.
    + by apply sigkill_is_last in Hin.
    + apply sigkill_is_last in Hin. by rewrite Hin.
Qed.

(** ** The drain loop *)

Lemma keeps_refl (s : TUISession.t) : TUISession.keeps s s.
Proof. by repeat split. Qed.

Lemma keeps_trans (s1 s2 s3 : TUISession.t) :
  TUISession.keeps s1 s2 -> TUISession.keeps s2 s3 -> TUISession.keeps s1 s3.
Proof.
  unfold TUISession.keeps. intros H1 H2.
  destruct H1 as (?&?&?&?&?&?&?&?&?), H2 as (?&?&?&?&?&?&?&?&?).
  repeat split; congruence.
Qed.

Lemma read_loop_done (timeout max_reads reads : Z) (output : bytes)
    (o : TUISession.Obj) :
  ~ (reads < max_reads)%Z ->
  TUISession.read_loop env timeout max_reads reads output o = (Ok output, o).
Proof.
  intros H. rewrite TUISession.read_loop_equation_1.
  destruct (decide (reads < max_reads)%Z); [done|]. reflexivity.
Qed.

Lemma read_loop_step (timeout max_reads reads : Z) (output : bytes)
    (o : TUISession.Obj) :
  (reads < max_reads)%Z ->
  TUISession.read_loop env timeout max_reads reads output o
  = (let (r, o0) := TUISession.read_once env timeout output o in
     match r with
     | Ok (Some output0) =>
       TUISession.read_loop env timeout max_reads (reads + 1) output0 o0
     | Ok None => (Ok output, o0)
     | Raise e => (Raise e, o0)
     end).
Proof.
  intros H. rewrite TUISession.read_loop_equation_1.
  destruct (decide (reads < max_reads)%Z); [|done].
  by rewrite TUISession.read_loop_clause_1_equation_1.
Qed.

(** Every way one round can go. *)
Lemma read_once_cases (timeout : Z) (output : bytes) (o : TUISession.Obj) :
  let f := TUISession.fd (TUISession.self o) in
  exists r o' d,
    TUISession.read_once env timeout output o = (r, o')
    /\ trace (TUISession.world o') = trace (TUISession.world o) ++ d
    /\ open_fds (TUISession.world o') = open_fds (TUISession.world o)
    /\ TUISession.keeps (TUISession.self o) (TUISession.self o')
    /\ TUISession.fd (TUISession.self o') = f
    /\ ((exists e, r = Raise (OSError e)
                   /\ d = [EvSelect f timeout (Raise (OSError e))])
        \/ (r = Ok None /\ d = [EvSelect f timeout (Ok false)])
        \/ (r = Ok None
            /\ exists rr, d = [EvSelect f timeout (Ok true); EvRead f 8192 rr]
                          /\ stops_drain (EvRead f 8192 rr) = true
                          /\ read_within 8192 (EvRead f 8192 rr) = true)
        \/ (exists c chunk,
              r = Ok (Some (output ++ c :: chunk))
              /\ (length (c :: chunk) <= N.to_nat 8192)%nat
              /\ d = [EvSelect f timeout (Ok true);
                      EvRead f 8192 (Ok (c :: chunk))])).
Proof.
  intros f. destruct o as [s w]. unfold TUISession.read_once, select, os_read.
  cbn [TUISession.self TUISession.world] in f. m_simpl.
  destruct (select_answer env (now w) (TUISession.fd s)) as [e|[|]] eqn:Hs;
    cbn [of_answer negb]; m_simpl.
  - eexists _, _, _. split; [done|]. repeat split; try done.
    left. by exists e.
  - match goal with
    | |- context [read_answer env ?t ?x] =>
      destruct (read_answer env t x) as [e|data] eqn:Hr
    end; cbn [of_answer]; cbv beta iota delta [result_bind bind result_ret];
      m_simpl.
    + eexists _, _, _. split; [done|]. cbn [trace log TUISession.world].
      split; [by rewrite <- app_assoc|]. repeat split; try done.
      right. right. left. split; [done|]. eexists. split; [done|]. by split.
    + destruct (firstn (N.to_nat 8192) data) as [|c chunk] eqn:Hc.
      * eexists _, _, _. split; [done|]. cbn [trace log TUISession.world].
        split; [by rewrite <- app_assoc|]. repeat split; try done.
        right. right. left. split; [done|]. eexists. split; [done|]. by split.
      * eexists _, _, _. split; [done|]. cbn [trace log TUISession.world].
        split; [by rewrite <- app_assoc|]. repeat split; try done.
        do 3 right. exists c, chunk. split; [done|]. split; [|done].
        rewrite <- Hc, length_take. lia.
  - eexists _, _, _. split; [done|]. repeat split; try done.
    right. left. by split.
Qed.

Lemma selects_app (d1 d2 : list event) :
  selects (d1 ++ d2) = (selects d1 + selects d2)%nat.
Proof. unfold selects. by rewrite List.filter_app, length_app. Qed.

(** The loop from any of its states: what it logs, what it leaves
    untouched, how many rounds it makes at most, and that only the last
    logged call can be one that ends it. *)
Lemma read_loop_spec (timeout max_reads : Z) (n : nat) :
  forall (reads : Z) (output : bytes) (o : TUISession.Obj),
  (Z.to_nat (max_reads - reads) <= n)%nat ->
  exists r o' d init last,
    TUISession.read_loop env timeout max_reads reads output o = (r, o')
    /\ trace (TUISession.world o') = trace (TUISession.world o) ++ d
    /\ open_fds (TUISession.world o') = open_fds (TUISession.world o)
    /\ TUISession.keeps (TUISession.self o) (TUISession.self o')
    /\ TUISession.fd (TUISession.self o') = TUISession.fd (TUISession.self o)
    /\ (selects d <= Z.to_nat (max_reads - reads))%nat
    /\ Forall (fun e => read_within 8192 e = true) d
    /\ d = init ++ last /\ (length last <= 1)%nat
    /\ Forall (fun e => stops_drain e = false) init
    /\ match r with
       | Ok out =>
         (length out
          <= length output + N.to_nat 8192 * Z.to_nat (max_reads - reads))%nat
       | Raise e =>
         exists pre er,
           e = OSError er
           /\ d = pre ++ [EvSelect (TUISession.fd (TUISession.self o)) timeout
                            (Raise (OSError er))]
       end.
Proof.
  induction n as [|n IH]; intros reads output o Hn.
  - rewrite read_loop_done by lia.
    exists (Ok output), o, [], [], []. rewrite app_nil_r.
    repeat split; try done; try lia;
      unfold selects; cbn [List.filter length]; lia.
  - destruct (decide (reads < max_reads)%Z) as [Hlt|Hge].
    2:{ rewrite read_loop_done by done.
        exists (Ok output), o, [], [], []. rewrite app_nil_r.
        repeat split; try done; try lia;
          unfold selects; cbn [List.filter length]; lia. }
    rewrite read_loop_step by done.
    destruct (read_once_cases timeout output o)
      as (r1 & o1 & d1 & -> & Ht & Hf & Hc & Hfd & Hcases).
    cbv zeta in Hcases, Hfd.
    assert (Hm : Z.to_nat (max_reads - reads)
                 = S (Z.to_nat (max_reads - (reads + 1)))) by lia.
    destruct Hcases as [(e & -> & ->)|[[-> ->]|[[-> (rr & -> & Hstop & Hwithin)]
                                              |(c & chunk & -> & Hlen & ->)]]].
    + exists (Raise (OSError e)), o1,
        [EvSelect (TUISession.fd (TUISession.self o)) timeout (Raise (OSError e))],
        [],
        [EvSelect (TUISession.fd (TUISession.self o)) timeout (Raise (OSError e))].
      split; [done|]. split; [exact Ht|]. split; [done|]. split; [done|].
      repeat split; try done.
      * rewrite Hm. cbn. lia.
      * by repeat constructor.
      * exists [], e. by split.
    + exists (Ok output), o1,
        [EvSelect (TUISession.fd (TUISession.self o)) timeout (Ok false)],
        [],
        [EvSelect (TUISession.fd (TUISession.self o)) timeout (Ok false)].
      split; [done|]. split; [exact Ht|]. split; [done|]. split; [done|].
      repeat split; try done.
      * rewrite Hm. cbn. lia.
      * by repeat constructor.
      * lia.
    + exists (Ok output), o1,
        [EvSelect (TUISession.fd (TUISession.self o)) timeout (Ok true);
         EvRead (TUISession.fd (TUISession.self o)) 8192 rr],
        [EvSelect (TUISession.fd (TUISession.self o)) timeout (Ok true)],
        [EvRead (TUISession.fd (TUISession.self o)) 8192 rr].
      split; [done|]. split; [exact Ht|]. split; [done|]. split; [done|].
      repeat split; try done.
      * rewrite Hm. cbn. lia.
      * by repeat constructor.
      * by repeat constructor.
      * lia.
    + destruct (IH (reads + 1)%Z (output ++ c :: chunk) o1)
        as (r & o' & d & init & last & -> & Ht' & Hf' & Hc' & Hfd' & Hsel
            & Hall & Hd & Hlast & Hinit & Hres); [lia|].
      exists r, o',
        ([EvSelect (TUISession.fd (TUISession.self o)) timeout (Ok true);
          EvRead (TUISession.fd (TUISession.self o)) 8192 (Ok (c :: chunk))] ++ d),
        ([EvSelect (TUISession.fd (TUISession.self o)) timeout (Ok true);
          EvRead (TUISession.fd (TUISession.self o)) 8192 (Ok (c :: chunk))]
           ++ init),
        last.
      split; [done|]. split; [by rewrite Ht', Ht, <- app_assoc|].
      split; [by rewrite Hf'|]. split; [by eapply keeps_trans|].
      split; [by rewrite Hfd'|]. split; [|split; [|split; [|split; [|split]]]].
      * rewrite selects_app, Hm. cbn. lia.
      * apply Forall_app. split; [|done].
        repeat constructor. unfold read_within. rewrite N.eqb_refl.
        cbn [andb]. by apply Nat.leb_le.
      * by rewrite Hd, <- app_assoc.
      * done.
      * apply Forall_app. split; [by repeat constructor | done].
      * destruct r as [out|e].
        -- rewrite length_app in Hres. rewrite Hm. cbn [length] in *. lia.
        -- destruct Hres as (pre & er & -> & ->). rewrite Hfd.
           eexists (_ ++ pre), er. split; [done|]. by rewrite <- app_assoc.
Qed.

(** C2. A drain makes at most [max_reads] rounds, each read asks for 8192
    bytes and gets no more, and a poll that finds nothing ready (or
    fails), a read of no bytes and a failed read can only be the last
    call of the drain: the loop ends with it. The drain therefore always
    ends; it returns its bytes unless the poll itself failed. *)
Theorem read_output_bounded (timeout max_reads : Z) (o : TUISession.Obj) :
  let r := (TUISession._read_output env timeout max_reads o).1 in
  let o' := (TUISession._read_output env timeout max_reads o).2 in
  let d := since (TUISession.world o) (TUISession.world o') in
  (selects d <= Z.to_nat max_reads)%nat
  /\ Forall (fun e => read_within 8192 e = true) d
  /\ (exists init last,
        d = init ++ last /\ (length last <= 1)%nat
        /\ Forall (fun e => stops_drain e = false) init)
  /\ TUISession.keeps (TUISession.self o) (TUISession.self o')
  /\ match r with
     | Ok out => (length out <= N.to_nat 8192 * Z.to_nat max_reads)%nat
     | Raise e =>
       exists pre er,
         e = OSError er
         /\ d = pre ++ [EvSelect (TUISession.fd (TUISession.self o)) timeout
                          (Raise (OSError er))]
     end.
Proof.
  intros r o' d. subst r o' d. unfold TUISession._read_output.
  destruct (read_loop_spec timeout max_reads (Z.to_nat max_reads) 0 [] o)
    as (r & o' & d & init & last & -> & Ht & _ & Hk & _ & Hsel & Hall & Hd
        & Hlast & Hinit & Hres); [lia|].
  cbn [fst snd]. rewrite (since_app _ _ _ Ht).
  replace (max_reads - 0)%Z with max_reads in * by lia.
  split; [done|]. split; [done|]. split; [by exists init, last|].
  split; [done|]. destruct r; [|done]. cbn [length] in Hres. lia.
Qed.

(** A child that never stops writing: the drain still ends, after exactly
    the hundred rounds of the default. *)
Example read_output_chatty :
  let '(r, o') := TUISession._read_output Scenario.chatty 100 100 Scenario.obj in
  (exists out, r = Ok out /\ length out = 100%nat)
  /\ selects (trace (TUISession.world o')) = 100%nat.
Proof. vm_compute. split; [eexists; split; reflexivity | reflexivity]. Qed.

End SessionFacts.

Lemma close_never_raises_witness :
  let w1 := (TUISession.close Scenario.stubborn Scenario.session
               Scenario.world).2 in
  let w2 := (TUISession.close Scenario.stubborn Scenario.session w1).2 in
  since Scenario.world w1
  = EvClose 5 (Ok tt)
    :: EvKill 100 SIG0 (Ok tt) :: EvKill 100 SIGTERM (Ok tt)
    :: concat (replicate 10 (round 100%Z)) ++ [EvKill 100 SIGKILL (Ok tt)]
  /\ (TUISession.close Scenario.stubborn Scenario.session w1).1 = Ok tt
  /\ open_fds w2 = open_fds w1
  /\ exists d, since w1 w2 = EvClose 5 (Raise (OSError EBADF)) :: d.
Proof.
  intros w1 w2.
  destruct (close_never_raises Scenario.stubborn Scenario.session
              Scenario.world w1) as (_ & _ & Hgone & Hagain & H).
  split; [|exact (Hagain Hgone)].
  destruct (H (Ok tt)) as [c Hc].
  - vm_compute. do 23 apply list_elem_of_further. apply list_elem_of_here.
  - assert (Hok : c = Ok tt).
    { pose proof Hc as Hc'. vm_compute in Hc'. congruence. }
    rewrite Hok in Hc. exact Hc.
Defined.

(** C1 as stated fails: [close] can be called again, and the second call
    is no double free only while the number is free. A session is
    spawned and closed; a second one is spawned and gets the same number,
    5; the first session, closed again, has the number still and closes
    the descriptor of the second, which runs on and was never closed. *)
Lemma close_again_releases_reused_descriptor :
  let env := Scenario.recycling in
  let g1 := (SessionManager.spawn env (u "true") 24 80
               Scenario.empty_manager).2 in
  let g2 := (SessionManager.close env (TUISession.id Scenario.first) g1).2 in
  let g3 := (SessionManager.spawn env (u "top") 24 80 g2).2 in
  let w4 := (TUISession.close env Scenario.first (SessionManager.world g3)).2 in
  (SessionManager.spawn env (u "true") 24 80 Scenario.empty_manager).1
  = Ok Scenario.first
  /\ (SessionManager.close env (TUISession.id Scenario.first) g1).1 = Ok true
  /\ (TUISession.fd Scenario.first ∉ open_fds (SessionManager.world g2))
  /\ (SessionManager.spawn env (u "top") 24 80 g2).1 = Ok Scenario.second
  /\ TUISession.fd Scenario.second = TUISession.fd Scenario.first
  /\ TUISession.fd Scenario.second ∈ open_fds (SessionManager.world g3)
  /\ SessionManager._sessions (SessionManager.self g3)
       !! TUISession.id Scenario.second = Some Scenario.second
  /\ (TUISession.is_alive env Scenario.second (SessionManager.world g3)).1
     = Ok true
  /\ since (SessionManager.world g3) w4
     = [EvClose 5 (Ok tt); EvKill 100 SIG0 (Raise (OSError ESRCH))]
  /\ (TUISession.fd Scenario.second ∉ open_fds w4).
Proof.
  cbv zeta. repeat split; try (vm_compute; reflexivity);
    apply (bool_decide_unpack _); vm_compute; exact I.
Qed.

(** C3. A session whose child runs under another user is probed with
    EPERM: the process exists, and [is_alive] still answers [False]. *)
Theorem is_alive_eperm_reports_dead :
  kill_fault Scenario.foreign (now Scenario.world)
    (TUISession.pid Scenario.session) SIG0 = Some EPERM
  /\ (TUISession.is_alive Scenario.foreign Scenario.session Scenario.world).1
     = Ok false.
Proof. split; reflexivity. Qed.

(** ** Captures *)

Section CaptureFacts.

Variable env : Env.

Lemma read_output_keeps (timeout max_reads : Z) (o : TUISession.Obj) :
  exists r o' d,
    TUISession._read_output env timeout max_reads o = (r, o')
    /\ TUISession.keeps (TUISession.self o) (TUISession.self o')
    /\ trace (TUISession.world o') = trace (TUISession.world o) ++ d
    /\ match r with
       | Ok _ => True
       | Raise e => exists er, e = OSError er
       end.
Proof.
  unfold TUISession._read_output.
  destruct (read_loop_spec env timeout max_reads (Z.to_nat max_reads) 0 [] o)
    as (r & o' & d & init & last & -> & Ht & _ & Hk & _ & _ & _ & _ & _ & _
        & Hres); [lia|].
  exists r, o', d. split; [done|]. split; [done|]. split; [done|].
  destruct r; [done|]. destruct Hres as (_ & er & -> & _). by exists er.
Qed.

Lemma send_keeps (data : bytes) (wait_ms : Z) (o : TUISession.Obj) :
  TUISession.keeps (TUISession.self o)
    (TUISession.self (TUISession.send env data wait_ms o).2).
Proof.
  destruct o as [s w]. unfold TUISession.send, os_write, sleep. m_simpl.
  destruct (write_fault env (now w) (TUISession.fd s)) as [e|];
    cbn [of_fault]; m_simpl; [apply keeps_refl|].
  match goal with
  | |- context [TUISession._read_output env 100 100 ?o1] =>
    destruct (read_output_keeps 100 100 o1) as (r & o' & d & -> & Hk & _)
  end.
  by destruct r.
Qed.

(** What a capture does to the counter and which file it names. *)
Lemma capture_cases (o : TUISession.Obj) :
  let n := TUISession.capture_count (TUISession.self o) in
  let path :=
    TUISession.session_dir (TUISession.self o)
      ++ [u "capture_" ++ TUISession.format_04d (n + 1) ++ u ".png"] in
  exists r o',
    TUISession.capture env o = (r, o')
    /\ match r with
       | Ok c =>
         TUISession.capture_count (TUISession.self o') = (n + 1)%Z
         /\ TUISession.image_path c = path
         /\ TUISession.ansi c = TUISession.text c
       | Raise e =>
         (TUISession.capture_count (TUISession.self o') = n
          /\ exists er, e = OSError er)
         \/ (TUISession.capture_count (TUISession.self o') = (n + 1)%Z
             /\ exists d, since (TUISession.world o) (TUISession.world o')
                          = d ++ [EvRender path (Raise e)])
       end.
Proof.
  intros n path. unfold TUISession.capture.
  destruct (read_output_keeps 100 100 o) as (r & o1 & d & Hread & Hk & Ht & Hr).
  destruct Hk as (_ & _ & _ & _ & _ & _ & Hdir & _ & Hcount).
  destruct r as [out|e].
  2:{ rewrite (bind_Raise _ _ _ _ _ Hread). eexists _, _. split; [done|].
      left. by split. }
  rewrite (bind_Ok _ _ _ _ _ Hread).
  destruct o1 as [s1 w1]. cbn [TUISession.self TUISession.world] in *.
  unfold TUISession._render_image, render. m_simpl.
  cbn [TUISession.capture_count TUISession.bump_capture_count
       TUISession.session_dir].
  rewrite Hdir, Hcount. fold n. fold path.
  destruct (render_fault env (now w1) path) as [e|].
  - eexists _, _. split; [done|]. right.
    cbn [TUISession.self TUISession.world TUISession.capture_count
         TUISession.bump_capture_count].
    split; [by rewrite Hcount|].
    exists d. apply since_app. cbn [trace log].
    by rewrite Ht, <- app_assoc.
  - eexists _, _. split; [done|].
    cbn [TUISession.self TUISession.capture_count
         TUISession.bump_capture_count TUISession.image_path
         TUISession.ansi TUISession.text].
    split; [by rewrite Hcount|]. by split.
Qed.

End CaptureFacts.

(** C4 as stated fails: when the renderer raises, the capture fails and
    the counter has moved all the same; the next capture, the first to
    succeed, is then numbered 2. *)
Lemma capture_failed_render_counts :
  let '(r1, o1) := TUISession.capture Scenario.flaky_renderer Scenario.obj in
  let '(r2, o2) := TUISession.capture Scenario.flaky_renderer o1 in
  TUISession.capture_count (TUISession.self Scenario.obj) = 0%Z
  /\ r1 = Raise (Exception 0)
  /\ TUISession.capture_count (TUISession.self o1) = 1%Z
  /\ (exists c, r2 = Ok c
                /\ TUISession.image_path c
                   = [u ""; u "tmp"; u "0123abcd"; u "capture_0002.png"]).
Proof. vm_compute. repeat split. eexists. split; reflexivity. Qed.

(** Two captures in a row, both successful. *)
Example capture_twice :
  let '(r1, o1) := TUISession.capture Scenario.stubborn Scenario.obj in
  let '(r2, o2) := TUISession.capture Scenario.stubborn o1 in
  (exists c, r1 = Ok c
             /\ TUISession.image_path c
                = [u ""; u "tmp"; u "0123abcd"; u "capture_0001.png"])
  /\ (exists c, r2 = Ok c
                /\ TUISession.image_path c
                   = [u ""; u "tmp"; u "0123abcd"; u "capture_0002.png"])
  /\ TUISession.format_04d 12 = u "0012"
  /\ TUISession.format_04d 12345 = u "12345".
Proof.
  vm_compute. split; [|split; [|split]]; try reflexivity;
    eexists; split; reflexivity.
Qed.

(* ===================================================================== *)
(** * Part IV: the session registry *)
(* ===================================================================== *)

Section RegistryFacts.

Variable env : Env.

Lemma manager_close_present (sid : str) (s : TUISession.t)
    (g : SessionManager.Mgr) :
  SessionManager._sessions (SessionManager.self g) !! sid = Some s ->
  SessionManager.close env sid g
  = (Ok true,
     {| SessionManager.self :=
          {| SessionManager.base_dir :=
               SessionManager.base_dir (SessionManager.self g);
             SessionManager._sessions :=
               delete sid (SessionManager._sessions (SessionManager.self g)) |};
        SessionManager.world :=
          (TUISession.close env s (SessionManager.world g)).2 |}).
Proof.
  intros Hs. unfold SessionManager.close, SessionManager.get_sessions,
    SessionManager.set_sessions, SessionManager.in_world.
  cbv beta iota zeta delta [mbind mret M_bind M_ret].
  cbn [SessionManager.self SessionManager.world SessionManager.base_dir
       SessionManager._sessions].
  rewrite Hs. cbv beta iota zeta delta [mbind mret M_bind M_ret].
  cbn [SessionManager.self SessionManager.world SessionManager.base_dir
       SessionManager._sessions].
  pose proof (close_returns env s (SessionManager.world g)) as Hr.
  destruct (TUISession.close env s (SessionManager.world g)) as [r w'].
  cbn [fst snd] in *. subst r. reflexivity.
Qed.

Lemma manager_close_absent (sid : str) (g : SessionManager.Mgr) :
  SessionManager._sessions (SessionManager.self g) !! sid = None ->
  SessionManager.close env sid g = (Ok false, g).
Proof.
  intros Hs. unfold SessionManager.close, SessionManager.get_sessions,
    SessionManager.set_sessions.
  cbv beta iota zeta delta [mbind mret M_bind M_ret].
  cbn [SessionManager.self SessionManager.world SessionManager.base_dir
       SessionManager._sessions].
  rewrite Hs, delete_id by done. by destruct g as [[? ?] ?].
Qed.

(** C6. [close(id)] of the registry answers [True] exactly when the id was
    present; the entry is then gone, a lookup finds nothing, and the
    session's own [close] has run on the world. On an absent id it
    answers [False] and changes nothing; it never raises. *)
Theorem manager_close_spec (sid : str) (g : SessionManager.Mgr) :
  let r := (SessionManager.close env sid g).1 in
  let g' := (SessionManager.close env sid g).2 in
  match SessionManager._sessions (SessionManager.self g) !! sid with
  | Some session =>
    r = Ok true
    /\ SessionManager._sessions (SessionManager.self g')
       = delete sid (SessionManager._sessions (SessionManager.self g))
    /\ (SessionManager.get sid g').1 = Ok None
    /\ SessionManager.world g'
       = (TUISession.close env session (SessionManager.world g)).2
    /\ SessionManager.base_dir (SessionManager.self g')
       = SessionManager.base_dir (SessionManager.self g)
  | None => r = Ok false /\ g' = g
  end.
Proof.
  intros r g'. subst r g'.
  destruct (SessionManager._sessions (SessionManager.self g) !! sid)
    as [s|] eqn:Hs.
  - rewrite (manager_close_present sid s g Hs). cbn [fst snd].
    repeat split; try done.
    unfold SessionManager.get, SessionManager.get_sessions.
    cbv beta iota zeta delta [mbind mret M_bind M_ret].
    cbn [SessionManager.self SessionManager._sessions fst].
    by rewrite lookup_delete_eq.
  - by rewrite (manager_close_absent sid g Hs).
Qed.

(** ** The sweep *)

Lemma reported_dead_now (w w' : World) (s : TUISession.t) :
  now w' = now w ->
  SessionManager.reported_dead env w' s = SessionManager.reported_dead env w s.
Proof.
  intros Hn. unfold SessionManager.reported_dead.
  by rewrite !is_alive_dead_on_any_error, Hn.
Qed.

Lemma is_alive_reported (w : World) (s : TUISession.t) :
  exists w', TUISession.is_alive env s w
             = (Ok (negb (SessionManager.reported_dead env w s)), w')
             /\ now w' = now w /\ open_fds w' = open_fds w.
Proof.
  unfold SessionManager.reported_dead. rewrite is_alive_eq. cbn [fst].
  exists (log w 0 (open_fds w)
            (EvKill (TUISession.pid s) SIG0
               (of_fault (kill_fault env (now w) (TUISession.pid s) SIG0)))).
  split; [|split; [|reflexivity]].
  - by destruct (bool_decide _).
  - cbn [now log]. lia.
Qed.

(** The list comprehension: the ids of the sessions reported dead, in the
    order of the dict; probing changes neither the clock nor the open
    descriptors. *)
Lemma dead_ids_spec (w0 : World) (items : list (str * TUISession.t)) :
  forall w, now w = now w0 ->
  exists w',
    SessionManager.dead_ids env items w
    = (Ok (filter (fun kv => SessionManager.reported_dead env w0 kv.2 = true)
             items).*1, w')
    /\ now w' = now w0 /\ open_fds w' = open_fds w.
Proof.
  induction items as [|[sid s] items IH]; intros w Hn.
  - exists w. by repeat split.
  - cbn [SessionManager.dead_ids].
    destruct (is_alive_reported w s) as (w1 & Halive & Hn1 & Hf1).
    rewrite (bind_Ok _ _ _ _ _ Halive).
    destruct (IH w1) as (w2 & Hrest & Hn2 & Hf2); [congruence|].
    rewrite (bind_Ok _ _ _ _ _ Hrest).
    exists w2. split; [|split; [done | congruence]].
    rewrite filter_cons. cbn [snd].
    rewrite (reported_dead_now w0 w s Hn).
    destruct (SessionManager.reported_dead env w0 s) eqn:Hd; cbn [negb].
    + by rewrite decide_True.
    + by rewrite decide_False.
Qed.

(** The loop over the dead ids: each is still in the dict when its turn
    comes, so each costs one entry and one call of the session's [close]. *)
Lemma close_all_spec (items : list (str * TUISession.t)) :
  forall g,
  NoDup items.*1 ->
  (forall sid s, (sid, s) ∈ items ->
     SessionManager._sessions (SessionManager.self g) !! sid = Some s) ->
  exists g',
    SessionManager.close_all env items.*1 g = (Ok tt, g')
    /\ SessionManager.base_dir (SessionManager.self g')
       = SessionManager.base_dir (SessionManager.self g)
    /\ (forall i, SessionManager._sessions (SessionManager.self g') !! i
                  = if decide (i ∈ items.*1) then None
                    else SessionManager._sessions (SessionManager.self g) !! i)
    /\ SessionManager.world g'
       = foldl (fun w kv => (TUISession.close env kv.2 w).2)
           (SessionManager.world g) items.
Proof.
  induction items as [|[sid s] items IH]; intros g Hnd Hin.
  - exists g. split; [done|]. split; [done|]. split; [|done].
    intros i. rewrite decide_False; [done|]. apply not_elem_of_nil.
  - cbn [fmap list_fmap fst] in *. apply NoDup_cons in Hnd as [Hsid Hnd].
    cbn [SessionManager.close_all].
    rewrite (bind_Ok _ _ _ _ _
               (manager_close_present sid s g (Hin sid s (list_elem_of_here _ _)))).
    match goal with
    | |- context [SessionManager.close_all env _ ?g1] =>
      destruct (IH g1) as (g' & Hrun & Hbase & Hlook & Hworld)
    end.
    { done. }
    { intros sid' s' Hin'. cbn [SessionManager.self SessionManager._sessions].
      rewrite lookup_delete_ne.
      - apply Hin. by apply list_elem_of_further.
      - intros ->. apply Hsid. apply list_elem_of_fmap. by exists (sid', s'). }
    exists g'. split; [exact Hrun|]. split; [by rewrite Hbase|].
    split; [|by rewrite Hworld].
    intros i. rewrite Hlook. cbn [SessionManager.self SessionManager._sessions].
    destruct (decide (i = sid)) as [->|Hne].
    + rewrite lookup_delete_eq. rewrite (decide_True (P := sid ∈ sid :: _));
        [|apply list_elem_of_here]. by destruct (decide _).
    + rewrite lookup_delete_ne by done.
      destruct (decide (i ∈ items.*1)) as [Hi|Hi].
      * rewrite decide_True; [done|]. by apply list_elem_of_further.
      * rewrite decide_False; [done|]. intros Hi'.
        apply elem_of_cons in Hi' as [?|?]; done.
Qed.

Lemma manager_in_world {A} (m : M World A) (g : SessionManager.Mgr)
    (r : result A) (w' : World) :
  m (SessionManager.world g) = (r, w') ->
  SessionManager.in_world m g
  = (r, {| SessionManager.self := SessionManager.self g;
           SessionManager.world := w' |}).
Proof. intros H. unfold SessionManager.in_world. by rewrite H. Qed.

(** The entries of a dict that satisfy [P], as a list and as a dict. *)
Lemma size_filter_to_list (P : str * TUISession.t -> Prop)
    `{!forall kv, Decision (P kv)} (m : gmap str TUISession.t) :
  length (filter P (map_to_list m)) = size (filter P m).
Proof.
  rewrite map_filter_alt, <- length_map_to_list.
  symmetry. apply Permutation_length, map_to_list_to_map.
  apply (sublist_NoDup _ ((map_to_list m).*1));
    [apply NoDup_fst_map_to_list | apply fmap_sublist, sublist_filter].
Qed.

(** X15. [cleanup_dead] goes by what [is_alive] reports: it removes from
    the dict exactly the sessions that [is_alive] reports dead in the
    state it starts from, and calls the [close] of each of them; it
    returns their number; the entries that [is_alive] reports alive stay
    as they were. *)
Theorem cleanup_dead_spec (g : SessionManager.Mgr) :
  let m := SessionManager._sessions (SessionManager.self g) in
  let w := SessionManager.world g in
  let dead := fun kv : str * TUISession.t =>
                SessionManager.reported_dead env w kv.2 = true in
  let r := (SessionManager.cleanup_dead env g).1 in
  let g' := (SessionManager.cleanup_dead env g).2 in
  r = Ok (Z.of_nat (size (filter dead m)))
  /\ SessionManager._sessions (SessionManager.self g')
     = filter (fun kv => SessionManager.reported_dead env w kv.2 = false) m
  /\ (forall sid,
        SessionManager._sessions (SessionManager.self g') !! sid
        = m !! sid ≫= fun s =>
            if SessionManager.reported_dead env w s then None else Some s)
  /\ SessionManager.base_dir (SessionManager.self g')
     = SessionManager.base_dir (SessionManager.self g)
  /\ (exists w1,
        now w1 = now w /\ open_fds w1 = open_fds w
        /\ SessionManager.world g'
           = foldl (fun w kv => (TUISession.close env kv.2 w).2) w1
               (filter dead (map_to_list m))).
Proof.
  intros m w dead r g'. subst r g'.
  unfold SessionManager.cleanup_dead.
  assert (Hget : SessionManager.get_sessions g = (Ok m, g)) by done.
  rewrite (bind_Ok _ _ _ _ _ Hget).
  destruct (dead_ids_spec w (map_to_list m) w eq_refl) as (w1 & Hdead & Hn1 & Hf1).
  fold dead in Hdead.
  rewrite (bind_Ok _ _ _ _ _ (manager_in_world _ g _ _ Hdead)).
  set (items := filter dead (map_to_list m)) in *.
  set (g1 := {| SessionManager.self := SessionManager.self g;
                SessionManager.world := w1 |}).
  destruct (close_all_spec items g1) as (g2 & Hrun & Hbase & Hlook & Hworld).
  { apply (sublist_NoDup _ ((map_to_list m).*1));
      [apply NoDup_fst_map_to_list | apply fmap_sublist, sublist_filter]. }
  { intros sid s Hin. apply list_elem_of_filter in Hin as [_ Hin].
    by apply elem_of_map_to_list in Hin. }
  rewrite (bind_Ok _ _ _ _ _ Hrun). cbn [fst snd mret M_ret].
  assert (Hentry : forall sid,
            SessionManager._sessions (SessionManager.self g2) !! sid
            = m !! sid ≫= fun s =>
                if SessionManager.reported_dead env w s then None else Some s).
  { intros sid. rewrite Hlook. cbn [g1 SessionManager.self]. fold m.
    destruct (m !! sid) as [s|] eqn:Hs; cbn [mbind option_bind].
    - destruct (SessionManager.reported_dead env w s) eqn:Hd.
      + rewrite decide_True; [done|]. apply list_elem_of_fmap.
        exists (sid, s). split; [done|]. apply list_elem_of_filter.
        split; [exact Hd | by apply elem_of_map_to_list].
      + rewrite decide_False; [done|]. intros Hin.
        apply list_elem_of_fmap in Hin as ([sid' s'] & -> & Hin).
        apply list_elem_of_filter in Hin as [Hd' Hin].
        apply elem_of_map_to_list in Hin. cbn [fst snd] in *.
        unfold dead in Hd'. cbn [snd] in Hd'. congruence.
    - by destruct (decide _). }
  split; [|split; [|split; [exact Hentry|split; [exact Hbase|]]]].
  - f_equal. f_equal. rewrite length_fmap. apply size_filter_to_list.
  - apply map_eq. intros sid. rewrite Hentry, map_lookup_filter.
    destruct (m !! sid) as [s|]; cbn [mbind option_bind]; [|done].
    destruct (SessionManager.reported_dead env w s) eqn:Hd;
      cbn [snd]; rewrite Hd.
    + by rewrite option_guard_False.
    + by rewrite option_guard_True.
  - exists w1. split; [done|]. split; [done|]. exact Hworld.
Qed.

End RegistryFacts.

(** C5. The sweep takes a session whose process runs: the child of
    [Scenario.session] runs under another user, the probe is refused with
    EPERM, [is_alive] answers [False], and [cleanup_dead] counts the
    session as removed, takes it out of the dict and closes its
    descriptor. *)
Theorem cleanup_dead_sweeps_running_session :
  let env := Scenario.foreign in
  let g := Scenario.manager in
  let g' := (SessionManager.cleanup_dead env g).2 in
  SessionManager._sessions (SessionManager.self g) !! u "0123abcd"
  = Some Scenario.session
  /\ kill_fault env (now (SessionManager.world g))
       (TUISession.pid Scenario.session) SIG0 = Some EPERM
  /\ TUISession.fd Scenario.session ∈ open_fds (SessionManager.world g)
  /\ (SessionManager.cleanup_dead env g).1 = Ok 1%Z
  /\ SessionManager._sessions (SessionManager.self g') !! u "0123abcd" = None
  /\ (TUISession.fd Scenario.session ∉ open_fds (SessionManager.world g'))
  /\ since (SessionManager.world g) (SessionManager.world g')
     = [EvKill 100 SIG0 (Raise (OSError EPERM)); EvClose 5 (Ok tt);
        EvKill 100 SIG0 (Raise (OSError EPERM))].
Proof.
  cbv zeta. repeat split; try (vm_compute; reflexivity);
    apply (bool_decide_unpack _); vm_compute; exact I.
Qed.

(* ===================================================================== *)
(** * Part V: more on the key encoder *)
(* ===================================================================== *)

(** ** The order of names *)

Lemma str_leb_refl (a : str) : str_leb a a = true.
Proof. induction a as [|x a IH]; [done|]. simpl. by rewrite N.ltb_irrefl. Qed.

Lemma str_leb_total (a b : str) : str_leb a b = true \/ str_leb b a = true.
Proof.
  revert b. induction a as [|x a IH]; intros [|y b]; simpl; auto.
  destruct (N.ltb_spec x y), (N.ltb_spec y x); auto; lia.
Qed.

Lemma str_leb_trans (a b c : str) :
  str_leb a b = true -> str_leb b c = true -> str_leb a c = true.
Proof.
  revert b c. induction a as [|x a IH]; intros [|y b] [|z c]; simpl; try done.
  destruct (N.ltb_spec x y), (N.ltb_spec y x), (N.ltb_spec y z),
    (N.ltb_spec z y), (N.ltb_spec x z), (N.ltb_spec z x);
    try done; try lia. apply IH.
Qed.

Lemma str_leb_antisym (a b : str) :
  str_leb a b = true -> str_leb b a = true -> a = b.
Proof.
  revert b. induction a as [|x a IH]; intros [|y b]; simpl; try done.
  destruct (N.ltb_spec x y), (N.ltb_spec y x); try done; try lia.
  intros Hab Hba. f_equal; [lia | by apply IH].
Qed.

#[local] Instance str_le_total : Total str_le.
Proof. intros a b. apply str_leb_total. Qed.

#[local] Instance str_le_trans : Transitive str_le.
Proof. intros a b c. apply str_leb_trans. Qed.

Lemma SPECIAL_KEYS_names_differ : NoDup SPECIAL_KEYS.*1.
Proof. apply (bool_decide_unpack _). vm_compute. exact I. Qed.

Section KeysMore.

Variable upper : str -> str.
Hypothesis upper_on_ascii :
  forall s, Forall (fun c => is_ascii c = true) s -> upper s = upper_ascii s.

(** What a casing of a key name puts out. *)
Lemma emit_casing (name t : str) (v : bytes) :
  (name, v) ∈ SPECIAL_KEYS -> casing_of name t ->
  t <> [] /\ (RBRACE ∉ t) /\ emit upper t = Ok v.
Proof.
  intros Hin Hc.
  destruct (SPECIAL_KEYS_entry name v Hin) as (Hne & Hk & Hget).
  destruct (casing_of_key name t Hk Hc) as (Hn & Ha & Hu).
  split; [|split; [done|]].
  - intros ->. apply Forall2_length in Hc. by destruct name.
  - unfold emit. by rewrite (upper_on_ascii t Ha), Hu, Hget.
Qed.

Lemma casing_of_refl (name : str) : casing_of name name.
Proof. apply Forall2_same_length_lookup_2; [done|]. intros i x y ? ?. left. congruence. Qed.

(** X1. [get_available_keys] lists the names of the table, each once, in
    ascending order; and each name it lists, put in braces, is encoded
    to the bytes the table holds for it. *)
Theorem get_available_keys_spec (k : str) :
  k ∈ get_available_keys ->
  Sorted str_le get_available_keys
  /\ get_available_keys ≡ₚ SPECIAL_KEYS.*1
  /\ NoDup get_available_keys
  /\ exists v, dict_get SPECIAL_KEYS k = Some v
               /\ parse_keys upper ([LBRACE] ++ k ++ [RBRACE]) = Ok v.
Proof.
  intros Hk. unfold get_available_keys, sorted_keys in *.
  split; [apply (Sorted_merge_sort str_le)|].
  split; [apply merge_sort_Permutation|].
  split; [rewrite merge_sort_Permutation; apply SPECIAL_KEYS_names_differ|].
  rewrite merge_sort_Permutation in Hk.
  apply list_elem_of_fmap in Hk as ([k' v] & -> & Hin). cbn [fst].
  exists v. destruct (SPECIAL_KEYS_entry k' v Hin) as (_ & _ & Hget).
  split; [done|].
  destruct (emit_casing k' k' v Hin (casing_of_refl k')) as (Hne & Hn & He).
  cbn [app]. by rewrite parse_keys_token, parse_keys_nil, cat_nil_r, He.
Qed.

(** X2. A key token between other input: brace-free text before it comes
    out as UTF-8, then the key's bytes, then the encoding of the rest. *)
Theorem parse_keys_key_in_context (name t text rest : str) (v : bytes) :
  (name, v) ∈ SPECIAL_KEYS ->
  casing_of name t ->
  LBRACE ∉ text ->
  parse_keys upper (text ++ [LBRACE] ++ t ++ [RBRACE] ++ rest)
  = cat (encode_utf8 text) (cat (Ok v) (parse_keys upper rest)).
Proof.
  intros Hin Hc Htext.
  destruct (emit_casing name t v Hin Hc) as (Hne & Hn & He).
  rewrite parse_keys_text by done. cbn [app].
  by rewrite parse_keys_token, He by done.
Qed.

End KeysMore.

Lemma get_available_keys_spec_witness :
  exists v, dict_get SPECIAL_KEYS (u "TAB") = Some v
            /\ parse_keys upper_ascii ([LBRACE] ++ u "TAB" ++ [RBRACE]) = Ok v.
Proof.
  assert (Hk : u "TAB" ∈ get_available_keys).
  { apply (bool_decide_unpack _). vm_compute. exact I. }
  exact (proj2 (proj2 (proj2
    (get_available_keys_spec upper_ascii (fun _ _ => eq_refl) (u "TAB") Hk)))).
Defined.

Lemma parse_keys_key_in_context_witness :
  parse_keys upper_ascii (u "ls" ++ [LBRACE] ++ u "Enter" ++ [RBRACE] ++ u "x")
  = cat (encode_utf8 (u "ls")) (cat (Ok [x0d]) (parse_keys upper_ascii (u "x"))).
Proof.
  assert (Hin : (u "ENTER", [x0d]) ∈ SPECIAL_KEYS)
    by (vm_compute; apply list_elem_of_here).
  assert (Hc : casing_of (u "ENTER") (u "Enter")).
  { unfold casing_of. vm_compute.
    repeat (apply Forall2_cons; split;
            [first [left; reflexivity | right; reflexivity] |]).
    constructor. }
  assert (Htext : LBRACE ∉ u "ls").
  { apply (bool_decide_unpack _). vm_compute. exact I. }
  exact (parse_keys_key_in_context upper_ascii (fun _ _ => eq_refl)
           (u "ENTER") (u "Enter") (u "ls") (u "x") [x0d] Hin Hc Htext).
Defined.

(** ** The matches of the pattern *)

Lemma scan_matches (f : nat) (pre s : str) :
  Forall (fun m => (length pre <= m_start m)%nat /\ match_of (pre ++ s) m)
    (scan f (length pre) s)
  /\ Sorted (fun m1 m2 => (m_end m1 <= m_start m2)%nat) (scan f (length pre) s).
Proof.
  revert pre s. induction f as [|f IH]; intros pre [|c rest];
    try (split; constructor).
  assert (Hskip : Forall (fun m => (length pre <= m_start m)%nat
                                   /\ match_of (pre ++ c :: rest) m)
                    (scan f (S (length pre)) rest)
                  /\ Sorted (fun m1 m2 => (m_end m1 <= m_start m2)%nat)
                       (scan f (S (length pre)) rest)).
  { destruct (IH (pre ++ [c]) rest) as [Hall Hsort].
    rewrite length_app, <- app_assoc in *. cbn [length app] in *.
    replace (length pre + 1)%nat with (S (length pre)) in * by lia.
    split; [|done]. eapply Forall_impl; [exact Hall|].
    intros m [? ?]. split; [lia | done]. }
  simpl. destruct (N.eqb_spec c LBRACE) as [->|Hc]; [|exact Hskip].
  destruct (find_close rest) as [[|j]|] eqn:Hfc; try exact Hskip.
  pose proof (find_close_lt _ _ Hfc) as Hj.
  destruct (find_close_Some _ _ Hfc) as [Hrest Hnone].
  destruct (IH (pre ++ LBRACE :: firstn (S j + 1) rest) (skipn (S j + 1) rest))
    as [Hall Hsort].
  assert (Hlen : length (pre ++ LBRACE :: firstn (S j + 1) rest)
                 = (length pre + S j + 2)%nat).
  { rewrite length_app. cbn [length]. rewrite length_take. lia. }
  rewrite Hlen, <- app_assoc in *. cbn [app] in Hall.
  rewrite firstn_skipn in Hall.
  change (skipn (S (j + 1)) rest) with (skipn (S j + 1) rest).
  split.
  - constructor.
    + split; [done|]. unfold match_of, str. cbn [m_start m_end group1].
      rewrite length_app. cbn [length].
      split; [lia|]. split; [lia|]. split; [by apply list_lookup_middle|].
      split; [|split; [|done]].
      * rewrite lookup_app_r by lia.
        replace (length pre + S j + 2 - 1 - length pre)%nat with (S (S j)) by lia.
        cbn [lookup list_lookup]. rewrite Hrest.
        apply list_lookup_middle. rewrite length_take. lia.
      * unfold slice. rewrite skipn_app.
        rewrite skipn_all2 by lia.
        replace (length pre + 1 - length pre)%nat with 1%nat by lia.
        cbn [app skipn]. f_equal. lia.
    + eapply Forall_impl; [exact Hall|]. intros m [? ?]. split; [lia | done].
  - constructor; [done|].
    destruct Hall as [|m ms [Hm _] _]; constructor.
    cbn [m_end]. lia.
Qed.

(** X3. The matches [finditer] finds in a text come in order and do not
    overlap, and each is a token of the text: opening brace, one or more
    characters other than the closing brace, closing brace. *)
Theorem finditer_matches (s : str) :
  Forall (match_of s) (finditer s)
  /\ Sorted (fun m1 m2 => (m_end m1 <= m_start m2)%nat) (finditer s).
Proof.
  destruct (scan_matches (length s) [] s) as [Hall Hsort].
  split; [|done]. eapply Forall_impl; [exact Hall|]. by intros m [_ ?].
Qed.

(** ** Plain text and control keys *)

Lemma encode_utf8_ascii (s : str) :
  Forall (fun c => is_ascii c = true) s ->
  encode_utf8 s = Ok (byte_of_N <$> s).
Proof.
  induction 1 as [|c s Hc _ IH]; [done|].
  cbn [encode_utf8 fmap list_fmap]. rewrite IH.
  unfold encode_codepoint. unfold is_ascii in Hc. by rewrite Hc.
Qed.

(** X4. ASCII text without an opening brace is sent as it is typed: one
    byte for each character, with the character's own code, whatever
    [upper] does. *)
Theorem parse_keys_ascii_text (upper : str -> str) (s : str) :
  Forall (fun c => is_ascii c = true) s ->
  LBRACE ∉ s ->
  parse_keys upper s = Ok (byte_of_N <$> s)
  /\ (forall out, parse_keys upper s = Ok out -> length out = length s).
Proof.
  intros Ha Hb.
  assert (H : parse_keys upper s = Ok (byte_of_N <$> s)).
  { rewrite <- (app_nil_r s) at 1.
    rewrite parse_keys_text, parse_keys_nil, cat_nil_r by done.
    by apply encode_utf8_ascii. }
  split; [done|]. intros out. rewrite H. intros [= <-]. apply length_fmap.
Qed.

Lemma parse_keys_ascii_text_witness :
  parse_keys upper_ascii (u "ls -la") = Ok (byte_of_N <$> u "ls -la").
Proof.
  assert (Ha : Forall (fun c => is_ascii c = true) (u "ls -la")).
  { apply (bool_decide_unpack _). vm_compute. exact I. }
  assert (Hb : LBRACE ∉ u "ls -la").
  { apply (bool_decide_unpack _). vm_compute. exact I. }
  exact (proj1 (parse_keys_ascii_text upper_ascii (u "ls -la") Ha Hb)).
Defined.

Lemma ctrl_entries :
  forallb (fun n => bool_decide
             (dict_get SPECIAL_KEYS (u "CTRL+" ++ [N.of_nat n])
              = Some [byte_of_N (N.of_nat n - 0x40)]))
    (seq 65 31) = true.
Proof. vm_compute. reflexivity. Qed.

(** X5. The control keys follow one rule: for every character [c] from
    [A] to [_] in ASCII, the letters and the five symbols behind them,
    [{CTRL+c}] is encoded to the single byte [c - 64]. *)
Theorem parse_keys_ctrl (upper : str -> str) (c : codepoint) :
  (forall s, Forall (fun c => is_ascii c = true) s -> upper s = upper_ascii s) ->
  0x41 <= c <= 0x5F ->
  parse_keys upper (u "{CTRL+" ++ [c] ++ u "}") = Ok [byte_of_N (c - 0x40)].
Proof.
  intros Hup Hc.
  assert (Hget : dict_get SPECIAL_KEYS (u "CTRL+" ++ [c])
                 = Some [byte_of_N (c - 0x40)]).
  { pose proof (proj1 (forallb_forall _ _) ctrl_entries (N.to_nat c)) as H.
    cbv beta in H. rewrite N2Nat.id in H. apply (bool_decide_eq_true_1 _). apply H.
    apply in_seq. lia. }
  assert (Hascii : Forall (fun c => is_ascii c = true) (u "CTRL+" ++ [c])).
  { apply Forall_app. split.
    - apply (bool_decide_unpack _). vm_compute. exact I.
    - repeat constructor. unfold is_ascii. apply N.ltb_lt. lia. }
  assert (Hsame : upper_ascii (u "CTRL+" ++ [c]) = u "CTRL+" ++ [c]).
  { unfold upper_ascii. rewrite map_app. f_equal. cbn [map]. f_equal.
    unfold ascii_upper. destruct (N.leb_spec 0x61 c); [lia | done]. }
  change (u "{CTRL+" ++ [c] ++ u "}")
    with (LBRACE :: (u "CTRL+" ++ [c]) ++ RBRACE :: []).
  rewrite parse_keys_token, parse_keys_nil, cat_nil_r.
  - unfold emit. by rewrite (Hup _ Hascii), Hsame, Hget.
  - done.
  - rewrite elem_of_app, list_elem_of_singleton. intros [H|H].
    + revert H. apply (bool_decide_unpack _). vm_compute. exact I.
    + rewrite <- H in Hc. unfold RBRACE in Hc. lia.
Qed.

Lemma parse_keys_ctrl_witness :
  parse_keys upper_ascii (u "{CTRL+" ++ [0x43] ++ u "}") = Ok [x03].
Proof.
  apply (parse_keys_ctrl upper_ascii 0x43 (fun _ _ => eq_refl)). lia.
Defined.

(* ===================================================================== *)
(** * Part VI: more on the terminal session *)
(* ===================================================================== *)

Lemma slept_app (d1 d2 : list event) :
  slept (d1 ++ d2) = (slept d1 + slept d2)%Z.
Proof.
  induction d1 as [|e d1 IH]; [done|]. cbn [app]. unfold slept in *.
  cbn [foldr]. rewrite IH. destruct e; lia.
Qed.

Lemma rounds_facts (fd p : Z) (k : nat) :
  Forall (fun e => call_of fd p e = true) (concat (replicate k (round p)))
  /\ slept (concat (replicate k (round p))) = (100 * Z.of_nat k)%Z
  /\ length (concat (replicate k (round p))) = (2 * k)%nat.
Proof.
  induction k as [|k (IH1 & IH2 & IH3)]; [by repeat split|].
  cbn [replicate concat app]. split; [|split].
  - repeat constructor; [by apply bool_decide_eq_true_2 | done].
  - unfold slept in *. cbn [foldr]. rewrite IH2. lia.
  - cbn [length]. rewrite IH3. lia.
Qed.

Section CloseMore.

Variable env : Env.

(** The calls of [close], all in all. *)
Lemma close_calls (s : TUISession.t) (w : World) :
  exists w' d,
    TUISession.close env s w = (Ok tt, w')
    /\ trace w' = trace w ++ d
    /\ open_fds w' = open_fds w ∖ {[TUISession.fd s]}
    /\ Forall (fun e => call_of (TUISession.fd s) (TUISession.pid s) e = true) d
    /\ (0 <= slept d <= 1000)%Z
    /\ (2 <= length d <= 24)%nat.
Proof.
  destruct (close_cases env s w) as (w' & c & d & -> & Hf & _ & Ht & Hd).
  eexists _, _. split; [done|]. split; [exact Ht|]. split; [done|].
  set (f := TUISession.fd s) in *. set (p := TUISession.pid s) in *.
  assert (Hown : forall sig r, call_of f p (EvKill p sig r) = true).
  { intros sig r. by apply bool_decide_eq_true_2. }
  assert (Hc : call_of f p (EvClose f c) = true) by by apply bool_decide_eq_true_2.
  cbv zeta in Hd.
  destruct Hd as [[e ->]|[[e ->]|[(k & e & Hk & ->)|[r ->]]]].
  - split; [by repeat constructor|]. split; [by cbn|]. cbn [length]. lia.
  - split; [by repeat constructor|]. split; [by cbn|]. cbn [length]. lia.
  - destruct (rounds_facts f p k) as (H1 & H2 & H3).
    split; [|split].
    + do 3 (constructor; [done|]). apply Forall_app. split; [done|].
      by repeat constructor.
    + change (EvClose f c :: EvKill p SIG0 (Ok tt) :: EvKill p SIGTERM (Ok tt)
              :: concat (replicate k (round p))
                 ++ [EvKill p SIG0 (Raise (OSError e))])
        with ([EvClose f c; EvKill p SIG0 (Ok tt); EvKill p SIGTERM (Ok tt)]
              ++ concat (replicate k (round p))
                 ++ [EvKill p SIG0 (Raise (OSError e))]).
      rewrite !slept_app, H2. cbn. lia.
    + cbn [length]. rewrite length_app, H3. cbn [length]. lia.
  - destruct (rounds_facts f p 10) as (H1 & H2 & H3).
    split; [|split].
    + do 3 (constructor; [done|]). apply Forall_app. split; [done|].
      by repeat constructor.
    + change (EvClose f c :: EvKill p SIG0 (Ok tt) :: EvKill p SIGTERM (Ok tt)
              :: concat (replicate 10 (round p)) ++ [EvKill p SIGKILL r])
        with ([EvClose f c; EvKill p SIG0 (Ok tt); EvKill p SIGTERM (Ok tt)]
              ++ concat (replicate 10 (round p)) ++ [EvKill p SIGKILL r]).
      rewrite !slept_app, H2. cbn. lia.
    + cbn [length]. rewrite length_app, H3. cbn [length]. lia.
Qed.

(** X6. Whatever the operating system answers, [close] takes one number
    out of the table of open descriptors and no other: the number in the
    session's [fd] field, whoever holds it by then. Every call it makes
    is on that number or on the session's process, or is a sleep; it
    sleeps one second at most and makes between two and twenty-four
    calls. *)
Theorem close_own_resources (s : TUISession.t) (w : World) :
  let w' := (TUISession.close env s w).2 in
  let d := since w w' in
  open_fds w' = open_fds w ∖ {[TUISession.fd s]}
  /\ Forall (fun e => call_of (TUISession.fd s) (TUISession.pid s) e = true) d
  /\ (0 <= slept d <= 1000)%Z
  /\ (2 <= length d <= 24)%nat.
Proof.
  intros w' d. subst w' d.
  destruct (close_calls s w) as (w' & d & -> & Ht & Hrest).
  cbn [snd]. by rewrite (since_app _ _ _ Ht).
Qed.

(** The part of [close] behind the probe, from any state: it starts with
    SIGTERM and only adds to the log. *)
Lemma close_signals (s : TUISession.t) (w1 : World) :
  let p := TUISession.pid s in
  exists r d,
    trace (try_except_OSError
             (os_kill env p SIGTERM;;
              finished ← TUISession.poll env s 10;
              if finished : bool then os_kill env p SIGKILL else mret tt)
             (mret tt) w1).2
    = trace w1 ++ EvKill p SIGTERM r :: d.
Proof.
  intros p.
  match goal with
  | |- context [try_except_OSError ?body _ w1] => set (BODY := body)
  end.
  destruct (kill_fault env (now w1) p SIGTERM) as [e|] eqn:Hterm.
  { assert (Hbody : BODY w1 = (Raise (OSError e),
                     log w1 1 (open_fds w1)
                       (EvKill p SIGTERM (Raise (OSError e))))).
    { unfold BODY. apply bind_Raise. by rewrite os_kill_eq, Hterm. }
    rewrite (try_OSError _ _ _ _ _ Hbody). by eexists _, []. }
  remember (log w1 1 (open_fds w1) (EvKill p SIGTERM (Ok tt))) as w2 eqn:Hw2.
  assert (Ht2 : trace w2 = trace w1 ++ [EvKill p SIGTERM (Ok tt)]) by by subst w2.
  assert (Hterm' : os_kill env p SIGTERM w1 = (Ok tt, w2)).
  { by rewrite os_kill_eq, Hterm, Hw2. }
  clear Hw2.
  destruct (poll_cases env s 10 w2)
    as (w3 & Hfds & [[Hp Ht]|(k & e & Hlt & Hp & Ht)]).
  - remember (of_fault (kill_fault env (now w3) p SIGKILL)) as r eqn:Hr.
    remember (log w3 1 (open_fds w3) (EvKill p SIGKILL r)) as w4 eqn:Hw4.
    assert (Hbody : BODY w1 = (r, w4)).
    { unfold BODY. rewrite (bind_Ok _ _ _ _ _ Hterm'), (bind_Ok _ _ _ _ _ Hp).
      by rewrite os_kill_eq, <- Hr, Hw4. }
    assert (Hrun : (try_except_OSError BODY (mret tt) w1).2 = w4).
    { destruct (kill_fault env (now w3) p SIGKILL) as [e|];
        cbn [of_fault] in Hr; subst r.
      - by rewrite (try_OSError _ _ _ _ _ Hbody).
      - by rewrite (try_Ok _ _ _ _ _ Hbody). }
    rewrite Hrun. subst w4. cbn [trace log]. rewrite Ht, Ht2.
    eexists _, _. by rewrite <- !app_assoc.
  - assert (Hbody : BODY w1 = (Ok tt, w3)).
    { unfold BODY. by rewrite (bind_Ok _ _ _ _ _ Hterm'), (bind_Ok _ _ _ _ _ Hp). }
    rewrite (try_Ok _ _ _ _ _ Hbody). cbn [snd]. rewrite Ht, Ht2.
    eexists _, _. by rewrite <- !app_assoc.
Qed.

(** X7. [close] signals only a process its probe has found. When the
    probe that follows the release of the descriptor fails, with whatever
    error, [close] makes those two calls and no other: no signal, no
    sleep. When the probe succeeds, the next call is SIGTERM. *)
Theorem close_probes_before_signalling (s : TUISession.t) (w : World) :
  let f := TUISession.fd s in
  let p := TUISession.pid s in
  let d := since w (TUISession.close env s w).2 in
  match kill_fault env (now w + 1) p SIG0 with
  | Some e => exists c, d = [EvClose f c; EvKill p SIG0 (Raise (OSError e))]
  | None => exists c r d',
      d = EvClose f c :: EvKill p SIG0 (Ok tt) :: EvKill p SIGTERM r :: d'
  end.
Proof.
  intros f p d. subst d. unfold TUISession.close.
  remember (if decide (f ∈ open_fds w)
            then of_fault (close_fault env (now w) f)
            else Raise (OSError EBADF)) as c eqn:Hc.
  remember (log w 1 (open_fds w ∖ {[f]}) (EvClose f c)) as w0 eqn:Hw0.
  assert (Hclose : try_except_OSError (os_close env f) (mret tt) w = (Ok tt, w0)).
  { unfold try_except_OSError, os_close. cbv beta zeta.
    rewrite <- Hc, <- Hw0.
    destruct c as [[]|[e| |n]]; try done; exfalso;
      destruct (decide _); try done;
      by destruct (close_fault env (now w) f). }
  assert (Hn0 : now w0 = (now w + 1)%nat) by by subst w0.
  assert (Ht0 : trace w0 = trace w ++ [EvClose f c]) by by subst w0.
  clear Hw0.
  rewrite (bind_Ok _ _ _ _ _ Hclose).
  rewrite (bind_Ok _ _ _ _ _ (is_alive_eq env s w0)).
  rewrite Hn0. fold p.
  destruct (kill_fault env (now w + 1) p SIG0) as [e|] eqn:Hprobe.
  - rewrite bool_decide_eq_false_2 by done. exists c.
    apply since_app. cbn [mret M_ret snd trace log of_fault].
    by rewrite Ht0, <- app_assoc.
  - rewrite bool_decide_eq_true_2 by done.
    match goal with
    | |- context [try_except_OSError _ _ ?w1] =>
      destruct (close_signals s w1) as (r & d' & Hd)
    end.
    exists c, r, d'. apply since_app. fold p in Hd. rewrite Hd.
    cbn [trace log of_fault]. by rewrite Ht0, <- !app_assoc.
Qed.

End CloseMore.

(** ** What the drain reads, returns and feeds *)

Lemma chunks_app (d1 d2 : list event) :
  chunks (d1 ++ d2) = chunks d1 ++ chunks d2.
Proof. apply omap_app. Qed.

Section DrainMore.

Variable env : Env.

(** One round: what it logs, feeds and returns. *)
Lemma read_once_feeds (timeout : Z) (output : bytes) (o : TUISession.Obj) :
  exists r o' d,
    TUISession.read_once env timeout output o = (r, o')
    /\ trace (TUISession.world o') = trace (TUISession.world o) ++ d
    /\ TUISession.stream (TUISession.self o')
       = TUISession.stream (TUISession.self o) ++ chunks d
    /\ TUISession.fd (TUISession.self o') = TUISession.fd (TUISession.self o)
    /\ Forall (fun e => drain_of (TUISession.fd (TUISession.self o)) e = true) d
    /\ match r with
       | Ok (Some out) => out = output ++ concat (chunks d)
       | Ok None => chunks d = []
       | Raise _ => True
       end.
Proof.
  destruct o as [s w]. unfold TUISession.read_once, select, os_read.
  m_simpl.
  assert (Hsel : forall r, drain_of (TUISession.fd s)
                             (EvSelect (TUISession.fd s) timeout r) = true).
  { intros r. by apply bool_decide_eq_true_2. }
  assert (Hrd : forall r, drain_of (TUISession.fd s)
                            (EvRead (TUISession.fd s) 8192 r) = true).
  { intros r. by apply bool_decide_eq_true_2. }
  destruct (select_answer env (now w) (TUISession.fd s)) as [e|[|]] eqn:Hs;
    cbn [of_answer negb]; m_simpl.
  - eexists _, _, [_]. split; [done|]. split; [done|].
    cbn [chunks omap chunk_of]. rewrite app_nil_r.
    repeat split; try done. by repeat constructor.
  - match goal with
    | |- context [read_answer env ?t ?x] =>
      destruct (read_answer env t x) as [e|data] eqn:Hr
    end; cbn [of_answer]; cbv beta iota delta [result_bind bind result_ret];
      m_simpl.
    + eexists _, _, [_; _]. split; [done|]. cbn [trace log TUISession.world].
      split; [by rewrite <- app_assoc|].
      cbn [chunks omap chunk_of]. rewrite app_nil_r.
      repeat split; try done. by repeat constructor.
    + destruct (firstn (N.to_nat 8192) data) as [|c chunk] eqn:Hc.
      * eexists _, _, [_; _]. split; [done|]. cbn [trace log TUISession.world].
        split; [by rewrite <- app_assoc|].
        cbn [chunks omap chunk_of]. rewrite app_nil_r.
        repeat split; try done. by repeat constructor.
      * eexists _, _, [_; _]. split; [done|]. cbn [trace log TUISession.world].
        split; [by rewrite <- app_assoc|].
        unfold chunks.
        cbn [omap list_omap chunk_of concat TUISession.self TUISession.stream
             TUISession.feed TUISession.fd].
        rewrite app_nil_r. repeat split; try done. by repeat constructor.
  - eexists _, _, [_]. split; [done|]. split; [done|].
    cbn [chunks omap chunk_of]. rewrite app_nil_r.
    repeat split; try done. by repeat constructor.
Qed.

Lemma read_loop_feeds (timeout max_reads : Z) (n : nat) :
  forall (reads : Z) (output : bytes) (o : TUISession.Obj),
  (Z.to_nat (max_reads - reads) <= n)%nat ->
  exists r o' d,
    TUISession.read_loop env timeout max_reads reads output o = (r, o')
    /\ trace (TUISession.world o') = trace (TUISession.world o) ++ d
    /\ TUISession.stream (TUISession.self o')
       = TUISession.stream (TUISession.self o) ++ chunks d
    /\ Forall (fun e => drain_of (TUISession.fd (TUISession.self o)) e = true) d
    /\ match r with
       | Ok out => out = output ++ concat (chunks d)
       | Raise _ => True
       end.
Proof.
  induction n as [|n IH]; intros reads output o Hn.
  - rewrite read_loop_done by lia. exists (Ok output), o, [].
    cbn [chunks omap concat]. rewrite !app_nil_r. by repeat split.
  - destruct (decide (reads < max_reads)%Z) as [Hlt|Hge].
    2:{ rewrite read_loop_done by done. exists (Ok output), o, [].
        cbn [chunks omap concat]. rewrite !app_nil_r. by repeat split. }
    rewrite read_loop_step by done.
    destruct (read_once_feeds timeout output o)
      as (r1 & o1 & d1 & -> & Ht & Hs & Hfd & Hall & Hr).
    destruct r1 as [[out1|]|e].
    + destruct (IH (reads + 1)%Z out1 o1)
        as (r & o' & d & -> & Ht' & Hs' & Hall' & Hr'); [lia|].
      exists r, o', (d1 ++ d). split; [done|].
      split; [by rewrite Ht', Ht, <- app_assoc|].
      split; [by rewrite Hs', Hs, chunks_app, <- app_assoc|].
      split; [apply Forall_app; split; [done | by rewrite <- Hfd]|].
      destruct r as [out|]; [|done].
      by rewrite Hr', Hr, chunks_app, concat_app, <- app_assoc.
    + exists (Ok output), o1, d1. split; [done|]. split; [done|].
      split; [done|]. split; [done|]. rewrite Hr. cbn [concat].
      by rewrite app_nil_r.
    + by exists (Raise e), o1, d1.
Qed.

(** X8. The drain feeds to the emulator exactly the chunks it read, in
    the order it read them, and what it returns is their concatenation;
    it polls and reads on the session's descriptor and makes no other
    call. When the poll fails, the chunks read before are in the emulator
    all the same. *)
Theorem read_output_feeds_what_it_reads (timeout max_reads : Z)
    (o : TUISession.Obj) :
  let r := (TUISession._read_output env timeout max_reads o).1 in
  let o' := (TUISession._read_output env timeout max_reads o).2 in
  let d := since (TUISession.world o) (TUISession.world o') in
  TUISession.stream (TUISession.self o')
  = TUISession.stream (TUISession.self o) ++ chunks d
  /\ Forall (fun e => drain_of (TUISession.fd (TUISession.self o)) e = true) d
  /\ match r with
     | Ok out => out = concat (chunks d)
     | Raise _ => True
     end.
Proof.
  intros r o' d. subst r o' d. unfold TUISession._read_output.
  destruct (read_loop_feeds timeout max_reads (Z.to_nat max_reads) 0 [] o)
    as (r & o' & d & -> & Ht & Hs & Hall & Hr); [lia|].
  cbn [fst snd]. by rewrite (since_app _ _ _ Ht).
Qed.

(** X9. [send] writes first: the data goes to the session's descriptor in
    one call. When that call fails, [send] raises its error and does
    nothing else, and the session is as it was. Otherwise it sleeps
    [wait_ms] and drains, in at most a hundred rounds on the same
    descriptor; it then returns, unless a poll of the drain failed. It
    opens and closes no descriptor. *)
Theorem send_writes_first (data : bytes) (wait_ms : Z) (o : TUISession.Obj) :
  let f := TUISession.fd (TUISession.self o) in
  let r := (TUISession.send env data wait_ms o).1 in
  let o' := (TUISession.send env data wait_ms o).2 in
  let d := since (TUISession.world o) (TUISession.world o') in
  open_fds (TUISession.world o') = open_fds (TUISession.world o)
  /\ match write_fault env (now (TUISession.world o)) f with
     | Some e =>
       r = Raise (OSError e) /\ d = [EvWrite f data (Raise (OSError e))]
       /\ TUISession.self o' = TUISession.self o
     | None =>
       exists d',
         d = EvWrite f data (Ok tt) :: EvSleep wait_ms :: d'
         /\ (selects d' <= 100)%nat
         /\ Forall (fun e => drain_of f e = true) d'
         /\ TUISession.stream (TUISession.self o')
            = TUISession.stream (TUISession.self o) ++ chunks d'
         /\ (r = Ok tt
             \/ exists er pre,
                  r = Raise (OSError er)
                  /\ d' = pre ++ [EvSelect f 100 (Raise (OSError er))])
     end.
Proof.
  intros f r o' d. subst r o' d. destruct o as [s w].
  cbn [TUISession.self TUISession.world] in *.
  unfold TUISession.send, os_write, sleep. m_simpl. fold f.
  destruct (write_fault env (now w) f) as [e|]; cbn [of_fault]; m_simpl.
  { split; [done|]. split; [done|]. split; [|done].
    apply since_app. by cbn [trace log]. }
  match goal with
  | |- context [TUISession._read_output env 100 100 ?o1] =>
    destruct (read_loop_spec env 100 100 100 0 [] o1)
      as (r & o' & d & init & last & Hrun & Ht & Hf & _ & _ & Hsel & _ & _
          & _ & _ & Hres); [lia|];
    destruct (read_loop_feeds 100 100 100 0 [] o1)
      as (r' & o'' & d2 & Hrun' & Ht2 & Hs & Hall & _); [lia|]
  end.
  rewrite Hrun in Hrun'. injection Hrun' as <- <-.
  assert (d2 = d) as ->.
  { rewrite Ht in Ht2. by apply app_inv_head in Ht2. }
  unfold TUISession._read_output. rewrite Hrun.
  cbn [TUISession.self TUISession.world trace log open_fds] in *.
  assert (Hd : since w (TUISession.world o')
               = EvWrite f data (Ok tt) :: EvSleep wait_ms :: d).
  { apply since_app. by rewrite Ht, <- !app_assoc. }
  destruct r as [out|e]; cbn [fst snd].
  - split; [done|]. exists d. split; [done|]. split; [lia|].
    split; [done|]. split; [done|]. by left.
  - destruct Hres as (pre & er & -> & Hpre).
    split; [done|]. exists d. split; [done|]. split; [lia|].
    split; [done|]. split; [done|]. right. by exists er, pre.
Qed.

(** X10. A capture that succeeds has drained first, in at most a hundred
    rounds, and has rendered once, as its last call, to the path it
    returns; its text is the display of the emulator after everything the
    drain read was fed to it, each line stripped on the right, and the
    ANSI form is that same text. *)
Theorem capture_renders_last (o : TUISession.Obj) :
  let r := (TUISession.capture env o).1 in
  let o' := (TUISession.capture env o).2 in
  let d := since (TUISession.world o) (TUISession.world o') in
  match r with
  | Ok c =>
    exists d',
      d = d' ++ [EvRender (TUISession.image_path c) (Ok tt)]
      /\ (selects d' <= 100)%nat
      /\ Forall (fun e => drain_of (TUISession.fd (TUISession.self o)) e = true) d'
      /\ TUISession.stream (TUISession.self o')
         = TUISession.stream (TUISession.self o) ++ chunks d'
      /\ TUISession.text c
         = TUISession.join_lines
             (map TUISession.rstrip
                (screen_display env (TUISession.stream (TUISession.self o'))))
      /\ TUISession.ansi c = TUISession.text c
  | Raise _ => True
  end.
Proof.
  intros r o' d. subst r o' d. unfold TUISession.capture.
  destruct (read_loop_spec env 100 100 100 0 [] o)
    as (r & o1 & d & init & last & Hrun & Ht & _ & _ & _ & Hsel & _ & _
        & _ & _ & _); [lia|].
  destruct (read_loop_feeds 100 100 100 0 [] o)
    as (r' & o1' & d2 & Hrun' & Ht2 & Hs & Hall & _); [lia|].
  rewrite Hrun in Hrun'. injection Hrun' as <- <-.
  assert (d2 = d) as ->.
  { rewrite Ht in Ht2. by apply app_inv_head in Ht2. }
  assert (Hread : TUISession._read_output env 100 100 o = (r, o1)) by done.
  destruct r as [out|e].
  2:{ by rewrite (bind_Raise _ _ _ _ _ Hread). }
  rewrite (bind_Ok _ _ _ _ _ Hread).
  destruct o1 as [s1 w1]. cbn [TUISession.self TUISession.world] in *.
  unfold TUISession._render_image, render. m_simpl.
  match goal with
  | |- context [render_fault env ?t ?p] => destruct (render_fault env t p)
  end; [done|].
  cbn [fst snd TUISession.self TUISession.world TUISession.text
       TUISession.ansi TUISession.image_path TUISession.stream
       TUISession.bump_capture_count].
  exists d. split; [apply since_app; cbn [trace log]; by rewrite Ht, <- app_assoc|].
  split; [lia|]. split; [exact Hall|]. split; [exact Hs|]. by split.
Qed.

End DrainMore.

(** ** The capture counter *)

Lemma renders_app (d1 d2 : list event) :
  renders (d1 ++ d2) = (renders d1 + renders d2)%nat.
Proof. unfold renders. by rewrite List.filter_app, length_app. Qed.

Lemma renders_drain (f : Z) (d : list event) :
  Forall (fun e => drain_of f e = true) d -> renders d = 0%nat.
Proof.
  induction 1 as [|e d He _ IH]; [done|].
  change (e :: d) with ([e] ++ d). rewrite renders_app, IH.
  by destruct e.
Qed.

Section CaptureCount.

Variable env : Env.

(** A drain: what it keeps, and that it renders nothing. *)
Lemma read_output_renders (timeout max_reads : Z) (o : TUISession.Obj) :
  exists r o' d,
    TUISession._read_output env timeout max_reads o = (r, o')
    /\ TUISession.keeps (TUISession.self o) (TUISession.self o')
    /\ trace (TUISession.world o') = trace (TUISession.world o) ++ d
    /\ renders d = 0%nat.
Proof.
  destruct (read_output_keeps env timeout max_reads o)
    as (r & o' & d & Hrun & Hk & Ht & _).
  destruct (read_loop_feeds env timeout max_reads (Z.to_nat max_reads) 0 [] o)
    as (r' & o'' & d' & Hrun' & Ht' & _ & Hall & _); [lia|].
  unfold TUISession._read_output in Hrun. rewrite Hrun in Hrun'.
  injection Hrun' as <- <-.
  assert (d' = d) as ->.
  { rewrite Ht in Ht'. by apply app_inv_head in Ht'. }
  exists r, o', d. split; [done|]. split; [done|]. split; [done|].
  by apply (renders_drain _ _ Hall).
Qed.

Lemma send_renders (data : bytes) (wait_ms : Z) (o : TUISession.Obj) :
  exists r o' d,
    TUISession.send env data wait_ms o = (r, o')
    /\ TUISession.keeps (TUISession.self o) (TUISession.self o')
    /\ trace (TUISession.world o') = trace (TUISession.world o) ++ d
    /\ renders d = 0%nat.
Proof.
  destruct o as [s w]. unfold TUISession.send, os_write, sleep. m_simpl.
  destruct (write_fault env (now w) (TUISession.fd s)) as [e|];
    cbn [of_fault]; m_simpl.
  { eexists _, _, [_]. split; [done|]. split; [apply keeps_refl|]. by split. }
  match goal with
  | |- context [TUISession._read_output env 100 100 ?o1] =>
    destruct (read_output_renders 100 100 o1) as (r & o' & d & -> & Hk & Ht & Hr)
  end.
  cbn [TUISession.self TUISession.world trace log] in *.
  exists (match r with Ok _ => Ok tt | Raise e => Raise e end), o',
    ([EvWrite (TUISession.fd s) data (Ok tt); EvSleep wait_ms] ++ d).
  split; [by destruct r|]. split; [done|].
  split; [by rewrite Ht, <- !app_assoc|]. by rewrite renders_app, Hr.
Qed.

(** Every way a capture can go. *)
Lemma capture_steps (o : TUISession.Obj) :
  let n := TUISession.capture_count (TUISession.self o) in
  let path :=
    TUISession.session_dir (TUISession.self o)
      ++ [u "capture_" ++ TUISession.format_04d (n + 1) ++ u ".png"] in
  exists r o' d,
    TUISession.capture env o = (r, o')
    /\ trace (TUISession.world o') = trace (TUISession.world o) ++ d
    /\ TUISession.session_dir (TUISession.self o')
       = TUISession.session_dir (TUISession.self o)
    /\ TUISession.capture_count (TUISession.self o')
       = (n + Z.of_nat (renders d))%Z
    /\ match (TUISession._read_output env 100 100 o).1 with
       | Raise e =>
         r = Raise e /\ renders d = 0%nat
         /\ TUISession.capture_count (TUISession.self o') = n
       | Ok _ =>
         TUISession.capture_count (TUISession.self o') = (n + 1)%Z
         /\ exists d' rr,
              d = d' ++ [EvRender path rr] /\ renders d' = 0%nat
              /\ match rr with
                 | Ok _ =>
                   exists c, r = Ok c /\ TUISession.image_path c = path
                             /\ TUISession.ansi c = TUISession.text c
                 | Raise e => r = Raise e
                 end
       end.
Proof.
  intros n path. unfold TUISession.capture.
  destruct (read_output_renders 100 100 o) as (r & o1 & d & Hread & Hk & Ht & Hr).
  rewrite Hread. cbn [fst].
  destruct Hk as (_ & _ & _ & _ & _ & _ & Hdir & _ & Hcount).
  destruct r as [out|e].
  2:{ rewrite (bind_Raise _ _ _ _ _ Hread). exists (Raise e), o1, d.
      split; [done|]. split; [done|]. split; [done|].
      split; [rewrite Hr, Hcount; unfold n; lia|]. by split. }
  rewrite (bind_Ok _ _ _ _ _ Hread).
  destruct o1 as [s1 w1]. cbn [TUISession.self TUISession.world] in *.
  unfold TUISession._render_image, render. m_simpl.
  cbn [TUISession.capture_count TUISession.bump_capture_count
       TUISession.session_dir].
  rewrite Hdir, Hcount. fold n. fold path.
  destruct (render_fault env (now w1) path) as [e|].
  - exists (Raise e), {| TUISession.self := TUISession.bump_capture_count s1;
                         TUISession.world :=
                           log w1 1 (open_fds w1) (EvRender path (Raise e)) |},
      (d ++ [EvRender path (Raise e)]).
    cbn [TUISession.self TUISession.world TUISession.capture_count
         TUISession.session_dir TUISession.bump_capture_count trace log].
    split; [done|]. split; [by rewrite Ht, <- app_assoc|]. split; [done|].
    split; [rewrite renders_app, Hr, Hcount; cbn; unfold n; lia|].
    split; [by rewrite Hcount|]. by exists d, (Raise e).
  - eexists (Ok _), {| TUISession.self := TUISession.bump_capture_count s1;
                       TUISession.world :=
                         log w1 1 (open_fds w1) (EvRender path (Ok tt)) |},
      (d ++ [EvRender path (Ok tt)]).
    cbn [TUISession.self TUISession.world TUISession.capture_count
         TUISession.session_dir TUISession.bump_capture_count trace log].
    split; [done|]. split; [by rewrite Ht, <- app_assoc|]. split; [done|].
    split; [rewrite renders_app, Hr, Hcount; cbn; unfold n; lia|].
    split; [by rewrite Hcount|]. exists d, (Ok tt).
    split; [done|]. split; [done|]. by eexists.
Qed.

(** One call of a caller: the counter moves by the rendering attempts. *)
Lemma run_call_renders (c : TUISession.call) (o : TUISession.Obj) :
  exists d,
    trace (TUISession.world (TUISession.run_call env o c))
    = trace (TUISession.world o) ++ d
    /\ TUISession.session_dir (TUISession.self (TUISession.run_call env o c))
       = TUISession.session_dir (TUISession.self o)
    /\ TUISession.capture_count (TUISession.self (TUISession.run_call env o c))
       = (TUISession.capture_count (TUISession.self o) + Z.of_nat (renders d))%Z.
Proof.
  destruct c as [|data wait_ms|timeout max_reads]; cbn [TUISession.run_call].
  - destruct (capture_steps o) as (r & o' & d & -> & Ht & Hdir & Hcount & _).
    by exists d.
  - destruct (send_renders data wait_ms o) as (r & o' & d & -> & Hk & Ht & Hr).
    destruct Hk as (_ & _ & _ & _ & _ & _ & Hdir & _ & Hcount).
    exists d. cbn [snd]. rewrite Hr, Hcount. split; [done|]. split; [done|]. lia.
  - destruct (read_output_renders timeout max_reads o)
      as (r & o' & d & -> & Hk & Ht & Hr).
    destruct Hk as (_ & _ & _ & _ & _ & _ & Hdir & _ & Hcount).
    exists d. cbn [snd]. rewrite Hr, Hcount. split; [done|]. split; [done|]. lia.
Qed.

Lemma run_calls_renders (cs : list TUISession.call) :
  forall o : TUISession.Obj,
  exists d,
    trace (TUISession.world (TUISession.run_calls env cs o))
    = trace (TUISession.world o) ++ d
    /\ TUISession.session_dir (TUISession.self (TUISession.run_calls env cs o))
       = TUISession.session_dir (TUISession.self o)
    /\ TUISession.capture_count (TUISession.self (TUISession.run_calls env cs o))
       = (TUISession.capture_count (TUISession.self o) + Z.of_nat (renders d))%Z.
Proof.
  unfold TUISession.run_calls.
  induction cs as [|c cs IH]; intros o; cbn [foldl].
  - exists []. rewrite app_nil_r. split; [done|]. split; [done|]. cbn. lia.
  - destruct (run_call_renders c o) as (d1 & Ht1 & Hdir1 & Hc1).
    destruct (IH (TUISession.run_call env o c)) as (d2 & Ht2 & Hdir2 & Hc2).
    exists (d1 ++ d2). split; [by rewrite Ht2, Ht1, <- app_assoc|].
    split; [by rewrite Hdir2|]. rewrite Hc2, Hc1, renders_app. lia.
Qed.

(** C4 as amended. The counter starts at 0 and moves only when a capture
    gets to its rendering step: by one, before the image is rendered,
    whether the rendering then succeeds or raises. A capture whose drain
    raises renders nothing and leaves the counter alone, and so do
    draining and sending. So after any calls of a caller the counter is
    what it was plus the number of rendering attempts made, it never
    goes down, and a capture that succeeds names its file
    [capture_<count>.png] in the session's directory, the count, in four
    digits at least, being that of the rendering attempts up to and
    including its own. *)
Theorem capture_count_steps (o : TUISession.Obj) (cs : list TUISession.call)
    (data : bytes) (timeout max_reads wait_ms : Z) (sid cmd : str)
    (rows cols pid fd : Z) (dir : Path) (created : nat) :
  let n := TUISession.capture_count (TUISession.self o) in
  let file := fun k : Z =>
    TUISession.session_dir (TUISession.self o)
      ++ [u "capture_" ++ TUISession.format_04d k ++ u ".png"] in
  let r := (TUISession.capture env o).1 in
  let o' := (TUISession.capture env o).2 in
  let d := since (TUISession.world o) (TUISession.world o') in
  let ok := TUISession.run_calls env cs o in
  let made := fun o2 : TUISession.Obj =>
    Z.of_nat (renders (since (TUISession.world o) (TUISession.world o2))) in
  TUISession.capture_count
    (TUISession.init sid cmd rows cols pid fd dir created) = 0%Z
  /\ TUISession.capture_count
       (TUISession.self (TUISession._read_output env timeout max_reads o).2) = n
  /\ TUISession.capture_count
       (TUISession.self (TUISession.send env data wait_ms o).2) = n
  /\ match (TUISession._read_output env 100 100 o).1 with
     | Raise e =>
       r = Raise e /\ renders d = 0%nat
       /\ TUISession.capture_count (TUISession.self o') = n
     | Ok _ =>
       TUISession.capture_count (TUISession.self o') = (n + 1)%Z
       /\ exists d' rr,
            d = d' ++ [EvRender (file (n + 1)%Z) rr] /\ renders d' = 0%nat
            /\ match rr with
               | Ok _ =>
                 exists c, r = Ok c /\ TUISession.image_path c = file (n + 1)%Z
                           /\ TUISession.ansi c = TUISession.text c
               | Raise e => r = Raise e
               end
     end
  /\ TUISession.capture_count (TUISession.self ok) = (n + made ok)%Z
  /\ (n <= TUISession.capture_count (TUISession.self ok))%Z
  /\ match (TUISession.capture env ok).1 with
     | Ok c =>
       TUISession.image_path c = file (n + made (TUISession.capture env ok).2)%Z
     | Raise _ => True
     end.
Proof.
  intros n file r o' d ok made. subst r o' d.
  split; [done|]. split; [|split; [|split; [|split; [|split]]]].
  - destruct (read_output_keeps env timeout max_reads o)
      as (r & o' & d & -> & Hk & _). apply Hk.
  - apply send_keeps.
  - destruct (capture_steps o) as (r & o' & d & -> & Ht & _ & _ & Hcases).
    cbn [fst snd]. by rewrite (since_app _ _ _ Ht).
  - destruct (run_calls_renders cs o) as (d & Ht & _ & Hc).
    unfold made, ok. by rewrite (since_app _ _ _ Ht).
  - destruct (run_calls_renders cs o) as (d & Ht & _ & Hc).
    unfold ok. rewrite Hc. fold n. lia.
  - destruct (run_calls_renders cs o) as (d1 & Ht1 & Hdir1 & Hc1).
    fold ok in Ht1, Hdir1, Hc1.
    destruct (capture_steps ok) as (r & o2 & d2 & Hrun & Ht2 & _ & Hc2 & Hcases).
    rewrite Hrun. cbn [fst snd]. destruct r as [c|]; [|done].
    destruct (TUISession._read_output env 100 100 ok).1 as [out|e];
      [|by destruct Hcases as [? _]].
    destruct Hcases as (Hcount & d' & rr & Hd2 & Hr' & Hrr).
    destruct rr as [[]|e]; [|done].
    destruct Hrr as (c' & [= <-] & Hpath & _). rewrite Hpath, Hdir1.
    assert (Hone : renders d2 = 1%nat).
    { by rewrite Hd2, renders_app, Hr'. }
    unfold file, made. rewrite (since_app _ _ (d1 ++ d2)).
    2:{ by rewrite Ht2, Ht1, <- app_assoc. }
    rewrite renders_app, Hone, Hc1. fold n.
    do 5 f_equal. lia.
Qed.

End CaptureCount.

(** ** The names of the capture files *)

Lemma uint_str_inj (d d' : Decimal.uint) : TUISession.uint_str d = TUISession.uint_str d' -> d = d'.
Proof.
  revert d'. induction d as [|d IH|d IH|d IH|d IH|d IH|d IH|d IH|d IH|d IH|d IH];
    intros [|d'|d'|d'|d'|d'|d'|d'|d'|d'|d']; cbn [TUISession.uint_str]; intros H;
    try discriminate H; try reflexivity;
    injection H as H'; f_equal; by apply IH.
Qed.

Lemma uint_str_zero (d : Decimal.uint) (x : str) :
  TUISession.uint_str d = 0x30 :: x -> exists d', d = Decimal.D0 d' /\ x = TUISession.uint_str d'.
Proof.
  destruct d; cbn [TUISession.uint_str]; intros H; try discriminate H.
  injection H as <-. by eexists.
Qed.

Lemma uint_str_no_sign (d : Decimal.uint) : 0x2D ∉ TUISession.uint_str d.
Proof.
  induction d; cbn [TUISession.uint_str]; [apply not_elem_of_nil|..];
    (apply not_elem_of_cons; split; [done|assumption]).
Qed.

(** The decimal form of a natural number: not empty, and without a
    leading zero unless the number is 0. *)
Lemma to_uint_normal (n : N) : Decimal.unorm (N.to_uint n) = N.to_uint n.
Proof.
  rewrite <- (DecimalN.Unsigned.to_of (N.to_uint n)).
  by rewrite DecimalN.Unsigned.of_to.
Qed.

Lemma decimal_nonempty (n : N) : TUISession.uint_str (N.to_uint n) <> [].
Proof.
  intros H. destruct (N.to_uint n) eqn:Hd; try discriminate H.
  pose proof (to_uint_normal n) as Hn. rewrite Hd in Hn.
  by apply DecimalFacts.unorm_nonnil in Hn.
Qed.

Lemma decimal_leading_zero (n : N) (x : str) :
  TUISession.uint_str (N.to_uint n) = 0x30 :: x -> x = [].
Proof.
  intros H. apply uint_str_zero in H as (d' & Hd & ->).
  pose proof (to_uint_normal n) as Hn. rewrite Hd in Hn.
  rewrite DecimalFacts.unorm_D0 in Hn. unfold Decimal.unorm in Hn.
  destruct (Decimal.nzhead d') eqn:Hz; try discriminate Hn.
  - by injection Hn as <-.
  - by apply DecimalFacts.nzhead_nonzero in Hz.
Qed.

Lemma length_zfill (k : nat) (x : str) :
  length (TUISession.zfill k x) = (k `max` length x)%nat.
Proof.
  unfold TUISession.zfill. rewrite length_app, repeat_length.
  unfold codepoint. lia.
Qed.

Lemma zfill_no_sign (k : nat) (x : str) : 0x2D ∉ x -> 0x2D ∉ TUISession.zfill k x.
Proof.
  intros Hx. unfold TUISession.zfill. rewrite elem_of_app. intros [H|H]; [|done].
  apply list_elem_of_In, repeat_spec in H. done.
Qed.

(** Padding with zeros keeps two decimal forms apart. *)
Lemma zfill_inj_le (k : nat) (x y : str) :
  (length x <= length y)%nat ->
  x <> [] ->
  (forall t, y = 0x30 :: t -> t = []) ->
  TUISession.zfill k x = TUISession.zfill k y -> x = y.
Proof.
  intros Hle Hx Hy H.
  pose proof (f_equal length H) as Hlen. rewrite !length_zfill in Hlen.
  destruct (decide (length x = length y)) as [Heq|Hne].
  { unfold TUISession.zfill in H. by apply app_inj_2 in H as [_ ?]. }
  exfalso. unfold TUISession.zfill in H.
  replace (k - length x)%nat
    with ((k - length y) + S (length y - length x - 1))%nat in H by lia.
  rewrite repeat_app, <- app_assoc in H. apply app_inv_head in H.
  cbn [repeat app] in H. symmetry in H. pose proof (Hy _ H) as Ht.
  apply app_eq_nil in Ht as [_ ->]. by destruct Hx.
Qed.

Lemma zfill_decimal_inj (k : nat) (a b : N) :
  TUISession.zfill k (TUISession.uint_str (N.to_uint a)) = TUISession.zfill k (TUISession.uint_str (N.to_uint b)) -> a = b.
Proof.
  intros H. apply DecimalN.Unsigned.to_uint_inj, uint_str_inj.
  destruct (Nat.le_ge_cases (length (TUISession.uint_str (N.to_uint a)))
              (length (TUISession.uint_str (N.to_uint b)))) as [Hle|Hle].
  - apply (zfill_inj_le k); [done | apply decimal_nonempty | | done].
    apply decimal_leading_zero.
  - symmetry. apply (zfill_inj_le k); [done | apply decimal_nonempty | | done].
    apply decimal_leading_zero.
Qed.

Lemma format_04d_inj (a b : Z) : TUISession.format_04d a = TUISession.format_04d b -> a = b.
Proof.
  unfold TUISession.format_04d.
  destruct (Z.ltb_spec a 0) as [Ha|Ha], (Z.ltb_spec b 0) as [Hb|Hb]; intros H.
  - injection H as H'. apply zfill_decimal_inj in H'.
    pose proof (Zabs2N.id_abs a). pose proof (Zabs2N.id_abs b). lia.
  - exfalso. apply (zfill_no_sign 4 (TUISession.uint_str (N.to_uint (Z.abs_N b))));
      [apply uint_str_no_sign|]. rewrite <- H. apply list_elem_of_here.
  - exfalso. apply (zfill_no_sign 4 (TUISession.uint_str (N.to_uint (Z.abs_N a))));
      [apply uint_str_no_sign|]. rewrite H. apply list_elem_of_here.
  - apply zfill_decimal_inj in H.
    pose proof (Zabs2N.id_abs a). pose proof (Zabs2N.id_abs b). lia.
Qed.

(** X11. The name of a capture file determines its number: captures with
    different counts go to different files of the session's directory,
    whatever the counts are; and the number takes four characters at
    least. *)
Theorem capture_names_distinct (dir : Path) (a b : Z) :
  a <> b ->
  (4 <= length (TUISession.format_04d a))%nat
  /\ TUISession.format_04d a <> TUISession.format_04d b
  /\ dir ++ [u "capture_" ++ TUISession.format_04d a ++ u ".png"]
     <> dir ++ [u "capture_" ++ TUISession.format_04d b ++ u ".png"].
Proof.
  intros Hab. split; [|split].
  - unfold TUISession.format_04d. destruct (a <? 0)%Z; cbn [length];
      rewrite length_zfill; lia.
  - intros H. by apply format_04d_inj in H.
  - intros H. apply app_inv_head in H. injection H as H'.
    apply app_inv_tail in H'. by apply format_04d_inj in H'.
Qed.

Lemma capture_names_distinct_witness :
  TUISession.format_04d 1 <> TUISession.format_04d 2
  /\ TUISession.format_04d 9999 <> TUISession.format_04d 10000.
Proof.
  split.
  - apply (capture_names_distinct [] 1 2). lia.
  - apply (capture_names_distinct [] 9999 10000). lia.
Defined.

(* ===================================================================== *)
(** * Part VII: more on the session registry *)
(* ===================================================================== *)



Section RegistryMore.

Variable env : Env.

(** X12. [list_sessions] returns the registered sessions, each once: as
    many as the dict has entries, and a session is listed exactly when
    [get] finds it under some id. Closing a registered id takes that one
    session off the list and leaves the others; closing an unknown id
    leaves the list as it is. Listing changes nothing. *)
Theorem list_sessions_spec (sid : str) (g : SessionManager.Mgr) :
  let m := SessionManager._sessions (SessionManager.self g) in
  let g' := (SessionManager.close env sid g).2 in
  exists l l',
    SessionManager.list_sessions g = (Ok l, g)
    /\ SessionManager.list_sessions g' = (Ok l', g')
    /\ length l = size m
    /\ (forall s, s ∈ l <-> exists i, (SessionManager.get i g).1 = Ok (Some s))
    /\ match m !! sid with
       | Some s => l ≡ₚ s :: l'
       | None => l' = l
       end.
Proof.
  intros m g'.
  exists ((map_to_list m).*2),
    ((map_to_list (SessionManager._sessions (SessionManager.self g'))).*2).
  split; [done|]. split; [done|].
  split; [by rewrite length_fmap, length_map_to_list|]. split.
  - intros s. rewrite list_elem_of_fmap. split.
    + intros ([i s'] & -> & Hin). exists i.
      apply elem_of_map_to_list in Hin.
      unfold SessionManager.get, SessionManager.get_sessions.
      cbv beta iota zeta delta [mbind mret M_bind M_ret].
      cbn [fst snd]. fold m. by rewrite Hin.
    + intros [i Hi]. exists (i, s). split; [done|].
      apply elem_of_map_to_list.
      unfold SessionManager.get, SessionManager.get_sessions in Hi.
      cbv beta iota zeta delta [mbind mret M_bind M_ret] in Hi.
      cbn [fst] in Hi. by injection Hi.
  - subst g'. destruct (m !! sid) as [s|] eqn:Hs.
    + rewrite (manager_close_present env sid s g Hs).
      cbn [snd SessionManager.self SessionManager._sessions]. fold m.
      by rewrite <- (map_to_list_delete m sid s Hs).
    + by rewrite (manager_close_absent env sid g Hs).
Qed.




End RegistryMore.

(* ===================================================================== *)
(** * Part VIII: the tool, sending keys *)
(* ===================================================================== *)

Section ToolFacts.

Variable upper : str -> str.
Variable env : Env.
Variable ToolResult : Type.
Variable ToolResult_new :
  bool -> option Tool.SentData -> option str -> result ToolResult.

(** What [send] logs first, and with which outcome it can end. *)
Lemma send_calls (data : bytes) (wait_ms : Z) (o : TUISession.Obj) :
  exists r o' rw d,
    TUISession.send env data wait_ms o = (r, o')
    /\ trace (TUISession.world o')
       = trace (TUISession.world o)
         ++ EvWrite (TUISession.fd (TUISession.self o)) data rw :: d
    /\ TUISession.keeps (TUISession.self o) (TUISession.self o')
    /\ match r with
       | Ok _ => rw = Ok tt
       | Raise e => exists er, e = OSError er
       end.
Proof.
  destruct o as [s w]. unfold TUISession.send, os_write, sleep. m_simpl.
  destruct (write_fault env (now w) (TUISession.fd s)) as [e|];
    cbn [of_fault]; m_simpl.
  { eexists _, _, _, []. split; [done|]. split; [done|].
    split; [apply keeps_refl|]. by exists e. }
  match goal with
  | |- context [TUISession._read_output env 100 100 ?o1] =>
    destruct (read_output_keeps env 100 100 o1) as (r & o' & d & -> & Hk & Ht & Hr)
  end.
  cbn [TUISession.self TUISession.world trace log] in *.
  destruct r as [out|e].
  - eexists _, _, _, _. split; [done|]. split; [|by split].
    rewrite Ht, <- !app_assoc. done.
  - eexists _, _, _, _. split; [done|]. split; [|by split].
    rewrite Ht, <- !app_assoc. done.
Qed.

(** X14. [send_keys] end to end. Without a session id, or with an empty
    one, and for an id that is not registered, it makes no call to the
    system and changes nothing; its answer is what [ToolResult] gives for
    [success=False] and the error message. Keys that cannot be encoded
    raise before anything is written. Otherwise its first call writes to
    the session's descriptor exactly the bytes that [parse_keys] gives
    for the keys; the other sessions stay as they are and the session
    keeps its place and its fields; and when it returns a result, the
    write went through and the result is what [ToolResult] gave for
    [success=True] and data whose [keys_sent] is the number of those
    bytes. *)
Theorem send_keys_sends_parsed_bytes (kwargs : Tool.Kwargs)
    (g : SessionManager.Mgr) :
  let m := SessionManager._sessions (SessionManager.self g) in
  let res := Tool._send_keys upper env ToolResult ToolResult_new kwargs g in
  let m' := SessionManager._sessions (SessionManager.self res.2) in
  match Tool.session_id kwargs with
  | None | Some [] =>
    res = (ToolResult_new false None
             (Some (u "Missing required parameter: session_id")), g)
  | Some sid =>
    match m !! sid with
    | None =>
      res = (ToolResult_new false None
               (Some (u "Session not found: " ++ sid)), g)
    | Some s =>
      match parse_keys upper (default [] (Tool.keys kwargs)) with
      | Raise e => res = (Raise e, g)
      | Ok key_bytes =>
        exists rw d s',
          since (SessionManager.world g) (SessionManager.world res.2)
          = EvWrite (TUISession.fd s) key_bytes rw :: d
          /\ delete sid m' = delete sid m
          /\ m' !! sid = Some s' /\ TUISession.keeps s s'
          /\ match res.1 with
             | Ok t =>
               rw = Ok tt
               /\ exists alive,
                    ToolResult_new true
                      (Some {| Tool.keys_sent := length key_bytes;
                               Tool.session_alive := alive |})
                      None
                    = Ok t
             | Raise _ => True
             end
      end
    end
  end.
Proof.
  intros m res m'. subst res m'. unfold Tool._send_keys.
  destruct (Tool.session_id kwargs) as [[|c sid]|]; [done| |done].
  set (i := c :: sid).
  match goal with
  | |- match ?x with Some _ => _ | None => _ end =>
    destruct x as [s|] eqn:Hs
  end.
  2:{ assert (Hget : SessionManager.get i g = (Ok None, g)).
      { unfold SessionManager.get, SessionManager.get_sessions.
        cbv beta iota zeta delta [mbind mret M_bind M_ret].
        f_equal. f_equal. exact Hs. }
      by rewrite (bind_Ok _ _ _ _ _ Hget). }
  assert (Hget : SessionManager.get i g = (Ok (Some s), g)).
  { unfold SessionManager.get, SessionManager.get_sessions.
    cbv beta iota zeta delta [mbind mret M_bind M_ret].
    f_equal. f_equal. exact Hs. }
  rewrite (bind_Ok _ _ _ _ _ Hget).
  destruct (parse_keys upper (default [] (Tool.keys kwargs))) as [bs|e] eqn:Hp.
  2:{ apply bind_Raise. done. }
  assert (Hlift : Tool.lift (Ok bs) g = (Ok bs, g)) by done.
  rewrite (bind_Ok _ _ _ _ _ Hlift).
  destruct (send_calls bs (default 100%Z (Tool.wait_ms kwargs))
              {| TUISession.self := s; TUISession.world := SessionManager.world g |})
    as (r & o' & rw & d & Hsend & Ht & Hk & Hr).
  cbn [TUISession.self TUISession.world] in *.
  set (g1 := {| SessionManager.self :=
                  {| SessionManager.base_dir :=
                       SessionManager.base_dir (SessionManager.self g);
                     SessionManager._sessions := <[i := TUISession.self o']> m |};
                SessionManager.world := TUISession.world o' |}).
  assert (Hon : SessionManager.on_session i s
                  (TUISession.send env bs (default 100%Z (Tool.wait_ms kwargs))) g
                = (r, g1)).
  { unfold SessionManager.on_session. by rewrite Hsend. }
  destruct r as [[]|e].
  - rewrite (bind_Ok _ _ _ _ _ Hon).
    rewrite (bind_Ok _ _ _ _ _
               (manager_in_world _ g1 _ _ (is_alive_eq env s (TUISession.world o')))).
    unfold Tool.lift.
    cbn [fst snd SessionManager.self SessionManager.world
         SessionManager._sessions g1].
    exists rw, (d ++ [EvKill (TUISession.pid s) SIG0
                        (of_fault (kill_fault env (now (TUISession.world o'))
                                     (TUISession.pid s) SIG0))]),
      (TUISession.self o').
    split; [apply since_app; cbn [trace log]; by rewrite Ht, <- app_assoc|].
    split; [apply delete_insert_eq|]. split; [apply lookup_insert_eq|].
    split; [done|].
    match goal with
    | |- match ?x with Ok _ => _ | Raise _ => _ end =>
      destruct x as [t|] eqn:Hnew; [|done]
    end.
    split; [done|]. by eexists.
  - rewrite (bind_Raise _ _ _ _ _ Hon). cbn [fst snd g1 SessionManager.self
      SessionManager.world SessionManager._sessions].
    exists rw, d, (TUISession.self o').
    split; [by apply since_app|].
    split; [apply delete_insert_eq|]. split; [apply lookup_insert_eq|].
    by split.
Qed.

End ToolFacts.
